(** * Frieren Downloader: the view-model of [src/App.tsx]

    The application is a React component whose logic is UI state, two
    asynchronous handlers ([handleFetchVideoInfo], [handleDownload]) that
    call the Tauri command bridge, and two event subscriptions
    ([download-log], [download-progress]).

    The embedding has three layers.
    - The data of the component: the [useState] cells as a record, the
      payloads and the request records.
    - The handlers as resumptions ([Prog]): a handler is a sequence of
      synchronous actions ([Do]) that suspends at each [await] ([Listen],
      [Invoke]) with the continuation the JavaScript engine would resume.
    - The event loop ([step], [run]): the environment (user, bridge, relay)
      drives the component with events; every action the component performs
      is recorded, in order, in a trace.

    Numbers are JavaScript numbers in the source; progress values are only
    stored and compared with the constants 0 and 100, so they are modelled
    as rationals. *)

From stdpp Require Import base strings list gmap fin_maps.
From Stdlib Require Import QArith.
Close Scope Q_scope.

(** ** Data model *)

Module QualityOption.
Record t := mk { id : string; label : string; format_type : string }.
End QualityOption.

Module LogMessage.
(** [type] is declared ["stdout" | "stderr"], but it is filled by a cast
      ([as]) of the payload's [message_type], so at run time it is whatever
      string the relay delivered. *)
Record t := mk { type : string; message : string }.
End LogMessage.

Module BackendLogMessage.
Record t := mk { message_type : string; message : string }.
End BackendLogMessage.

Module ProgressUpdate.
(** payload of [download-progress]: [{ progress: number; status: string }] *)
Record t := mk { progress : Q; status : string }.
End ProgressUpdate.

Module DownloadRequest.
(** The argument record of [download_media]. [downloadPath] is the state
      cell of type [string | null]: [None] is JavaScript's [null], the
      request that names no destination. *)
Record t := mk {
    url : string;
    format : string;
    quality : string;
    downloadPath : option string
  }.
End DownloadRequest.

(** The [useState] cells of [App]. *)
Module AppState.
Record t := mk {
    url : string;
    format : string;
    quality : string;
    isDownloading : bool;
    isFetchingInfo : bool;
    progress : Q;
    downloadPath : option string;
    availableQualities : list QualityOption.t;
    logs : list LogMessage.t;
    isLogViewerOpen : bool
  }.

(** The initial values given to [useState]. *)
Definition initial : t :=
    mk "" "video+audio" "best" false false 0%Q None [] [] false.
End AppState.
Import AppState.

(** ** The bridge and the relay *)

Inductive Channel := download_log | download_progress.

Definition Payload (c : Channel) : Type :=
  match c with
  | download_log => BackendLogMessage.t
  | download_progress => ProgressUpdate.t
  end.

#[global] Instance Channel_eq_dec : EqDecision Channel.
Proof. solve_decision. Defined.

Inductive Command :=
| get_video_info (url : string)
| download_media (req : DownloadRequest.t).

Definition Reply (c : Command) : Type :=
  match c with
  | get_video_info _ => list QualityOption.t
  | download_media _ => unit
  end.

(** How an awaited promise settles. The bridge rejects with a value that
    the handlers only ever interpolate into a template string, so the
    rejection carries that string. *)
Inductive Settled (A : Type) :=
| Fulfilled (a : A)
| Rejected (error : string).
Arguments Fulfilled {A} a.
Arguments Rejected {A} error.

(** The function returned by [listen], identified by the subscription it
    releases. *)
Definition UnlistenFn := nat.

(** ** Synchronous actions *)

Inductive Action :=
| setUrl (v : string)
| setFormat (v : string)
| setQuality (v : string)
| setIsDownloading (v : bool)
| setIsFetchingInfo (v : bool)
| setProgress (v : Q)
| setDownloadPath (v : option string)
| setAvailableQualities (v : list QualityOption.t)
| setLogs (v : list LogMessage.t)
| setLogs_fn (f : list LogMessage.t -> list LogMessage.t)
| setIsLogViewerOpen (v : bool)
| toast_error (msg : string)
| toast_success (msg : string)
| console_error (error : string)
| call_unlisten (unlisten : UnlistenFn).

(** The effect of a state setter on the cells; the other actions leave
    them alone. *)
Definition apply_setter (a : Action) (s : AppState.t) : AppState.t :=
  match a with
  | setUrl v =>
      mk v (format s) (quality s) (isDownloading s) (isFetchingInfo s)
         (progress s) (downloadPath s) (availableQualities s) (logs s)
         (isLogViewerOpen s)
  | setFormat v =>
      mk (url s) v (quality s) (isDownloading s) (isFetchingInfo s)
         (progress s) (downloadPath s) (availableQualities s) (logs s)
         (isLogViewerOpen s)
  | setQuality v =>
      mk (url s) (format s) v (isDownloading s) (isFetchingInfo s)
         (progress s) (downloadPath s) (availableQualities s) (logs s)
         (isLogViewerOpen s)
  | setIsDownloading v =>
      mk (url s) (format s) (quality s) v (isFetchingInfo s)
         (progress s) (downloadPath s) (availableQualities s) (logs s)
         (isLogViewerOpen s)
  | setIsFetchingInfo v =>
      mk (url s) (format s) (quality s) (isDownloading s) v
         (progress s) (downloadPath s) (availableQualities s) (logs s)
         (isLogViewerOpen s)
  | setProgress v =>
      mk (url s) (format s) (quality s) (isDownloading s) (isFetchingInfo s)
         v (downloadPath s) (availableQualities s) (logs s)
         (isLogViewerOpen s)
  | setDownloadPath v =>
      mk (url s) (format s) (quality s) (isDownloading s) (isFetchingInfo s)
         (progress s) v (availableQualities s) (logs s)
         (isLogViewerOpen s)
  | setAvailableQualities v =>
      mk (url s) (format s) (quality s) (isDownloading s) (isFetchingInfo s)
         (progress s) (downloadPath s) v (logs s)
         (isLogViewerOpen s)
  | setLogs v =>
      mk (url s) (format s) (quality s) (isDownloading s) (isFetchingInfo s)
         (progress s) (downloadPath s) (availableQualities s) v
         (isLogViewerOpen s)
  | setLogs_fn f =>
      mk (url s) (format s) (quality s) (isDownloading s) (isFetchingInfo s)
         (progress s) (downloadPath s) (availableQualities s) (f (logs s))
         (isLogViewerOpen s)
  | setIsLogViewerOpen v =>
      mk (url s) (format s) (quality s) (isDownloading s) (isFetchingInfo s)
         (progress s) (downloadPath s) (availableQualities s) (logs s)
         v
  | toast_error _ | toast_success _ | console_error _ | call_unlisten _ => s
  end.

(** ** Handlers as resumptions *)

Inductive Prog :=
| Return
| Throw (error : string)
| Do (a : Action) (k : Prog)
| Listen (c : Channel) (handler : Payload c -> Prog)
         (k : Settled UnlistenFn -> Prog)
| Invoke (cmd : Command) (k : Settled (Reply cmd) -> Prog).

Declare Scope prog_scope.
Delimit Scope prog_scope with prog.
Bind Scope prog_scope with Prog.
Notation "a ;; k" := (Do a k%prog)
  (at level 100, k at level 200, right associativity) : prog_scope.
Local Open Scope prog_scope.

(** [!s] on a string: only the empty string is falsy. *)
Definition not_ (s : string) : bool :=
  match s with
  | EmptyString => true
  | String _ _ => false
  end.

(** The [download-log] callback of the mount effect (App.tsx 51-53). *)
Definition onDownloadLog (payload : BackendLogMessage.t) : Prog :=
  setLogs_fn (fun prev =>
    prev ++ [LogMessage.mk (BackendLogMessage.message_type payload)
                           (BackendLogMessage.message payload)]) ;;
  Return.

(** The body of [useEffect(..., [])] (App.tsx 50-58): the promise returned
    by [listen] is kept, not awaited, so nothing runs when it settles. *)
Definition useEffect_mount : Prog :=
  Listen download_log onDownloadLog (fun _ => Return).

(** [handleFetchVideoInfo] (App.tsx 60-77), closed over the cells of the
    render it was created in. *)
Definition handleFetchVideoInfo (render : AppState.t) : Prog :=
  if not_ (url render) then
    toast_error "Please enter a YouTube URL" ;;
    Return
  else
    setIsFetchingInfo true ;;
    Invoke (get_video_info (url render)) (fun settled =>
      match settled with
      | Fulfilled qualities =>
          setAvailableQualities qualities ;;
          toast_success "Video info fetched successfully!" ;;
          (* finally *)
          setIsFetchingInfo false ;;
          Return
      | Rejected error =>
          console_error error ;;
          toast_error ("Failed to fetch video info: " +:+ error) ;;
          (* finally *)
          setIsFetchingInfo false ;;
          Return
      end).

(** The [download-progress] callback (App.tsx 92-94). *)
Definition onDownloadProgress (payload : ProgressUpdate.t) : Prog :=
  setProgress (ProgressUpdate.progress payload) ;;
  Return.

(** [handleDownload] (App.tsx 79-113). [await listen] is outside the
    [try], so its rejection leaves the function at once. *)
Definition handleDownload (render : AppState.t) : Prog :=
  if not_ (url render) then
    toast_error "Please enter a YouTube URL" ;;
    Return
  else
    setIsDownloading true ;;
    setProgress 0 ;;
    setLogs [] ;;
    Listen download_progress onDownloadProgress (fun listened =>
      match listened with
      | Rejected error => Throw error
      | Fulfilled unlisten =>
          Invoke (download_media
                    (DownloadRequest.mk (url render) (format render)
                                        (quality render)
                                        (downloadPath render)))
            (fun settled =>
               match settled with
               | Fulfilled _ =>
                   toast_success "Download started successfully!" ;;
                   setProgress 100 ;;
                   (* finally *)
                   setIsDownloading false ;;
                   call_unlisten unlisten ;;
                   Return
               | Rejected error =>
                   console_error error ;;
                   toast_error ("Failed to start download: " +:+ error) ;;
                   (* finally *)
                   setIsDownloading false ;;
                   call_unlisten unlisten ;;
                   Return
               end)
      end).

(** The folder button's handler after the directory dialog returns
    (App.tsx 173-181): [if (selected) setDownloadPath(selected)]. *)
Definition onDirectorySelected (selected : option string) : Prog :=
  match selected with
  | Some path =>
      if not_ path then Return else setDownloadPath (Some path) ;; Return
  | None => Return
  end.

(** ** The view *)

Module SelectItem.
Record t := mk { value : string; children : string }.
End SelectItem.

(** The children of the quality [SelectContent] (App.tsx 209-222). *)
Definition qualityItems (s : AppState.t) : list SelectItem.t :=
  if (0 <? length (availableQualities s))%nat then
    map (fun q => SelectItem.mk (QualityOption.id q) (QualityOption.label q))
        (availableQualities s)
  else
    [ SelectItem.mk "best" "Best Available";
      SelectItem.mk "worst" "Lowest Available" ].

(** [disabled=] of the two buttons. *)
Definition fetchButton_disabled (s : AppState.t) : bool := isFetchingInfo s.
Definition downloadButton_disabled (s : AppState.t) : bool := isDownloading s.

(** ** The event loop *)

Inductive Call :=
| call_listen (c : Channel)
| call_invoke (cmd : Command).

(** What the component did, in order. [tid] names the activation (one run
    of a handler or callback) that did it. *)
Inductive Entry :=
| Did (tid : nat) (a : Action)
| Called (tid : nat) (c : Call)
| Uncaught (tid : nat) (error : string).

(** A handler registered with the event relay. *)
Record Listener := mkListener {
  channel : Channel;
  handler : Payload channel -> Prog
}.

Record World := mkWorld {
  state : AppState.t;
  (** the relay's registrations, oldest first, keyed by their [UnlistenFn] *)
  listeners : list (UnlistenFn * Listener);
  (** the activations suspended at an [await], each at its [Listen] or
      [Invoke] node *)
  pending : gmap nat Prog;
  (** source of fresh activation and subscription identifiers *)
  next_id : nat;
  trace : list Entry
}.

Definition perform (tid : nat) (a : Action) (w : World) : World :=
  mkWorld (apply_setter a (state w))
          (match a with
           | call_unlisten u => filter (λ l, l.1 ≠ u) (listeners w)
           | _ => listeners w
           end)
          (pending w) (next_id w) (trace w ++ [Did tid a]).

Definition suspend (tid : nat) (p : Prog) (c : Call) (w : World) : World :=
  mkWorld (state w) (listeners w) (<[tid := p]> (pending w)) (next_id w)
          (trace w ++ [Called tid c]).

Definition uncaught (tid : nat) (error : string) (w : World) : World :=
  mkWorld (state w) (listeners w) (pending w) (next_id w)
          (trace w ++ [Uncaught tid error]).

(** Run an activation until it returns, throws or reaches an [await]. *)
Fixpoint exec (tid : nat) (p : Prog) (w : World) : World :=
  match p with
  | Return => w
  | Throw error => uncaught tid error w
  | Do a k => exec tid k (perform tid a w)
  | Listen c _ _ => suspend tid p (call_listen c) w
  | Invoke cmd _ => suspend tid p (call_invoke cmd) w
  end.

Definition fresh (w : World) : World :=
  mkWorld (state w) (listeners w) (pending w) (S (next_id w)) (trace w).

(** Start a new activation. *)
Definition activate (p : Prog) (w : World) : World :=
  exec (next_id w) p (fresh w).

(** Take a suspended activation out of the pending set to resume it. *)
Definition wake (tid : nat) (w : World) : World :=
  mkWorld (state w) (listeners w) (delete tid (pending w)) (next_id w)
          (trace w).

(** The relay accepts a subscription and hands out its [UnlistenFn]. The
    callback hears the emissions from the moment the promise of [listen]
    is fulfilled. *)
Definition register (c : Channel) (h : Payload c -> Prog) (w : World)
  : World :=
  mkWorld (state w) (listeners w ++ [(next_id w, mkListener c h)])
          (pending w) (S (next_id w)) (trace w).

(** Deliver a payload to one registration, if it is on that channel. *)
Definition deliver1 (c : Channel) (payload : Payload c) (w : World)
           (l : UnlistenFn * Listener) : World :=
  match decide (c = channel l.2) with
  | left e => activate (handler l.2 (eq_rect c Payload payload _ e)) w
  | right _ => w
  end.

Definition deliver (c : Channel) (payload : Payload c) (w : World) : World :=
  fold_left (deliver1 c payload) (listeners w) w.

(** What the environment can do to the mounted component: the user acts
    on a control, the bridge settles a pending call, the relay emits. A
    handler started by an event runs with the cells of the current render
    ([state w]), as the closure React created for that render does, and a
    settled promise resumes its activation in the same step. A click on a
    disabled button, a value that a [Select] does not offer and a
    settlement nobody waits for do nothing. *)
Inductive Event :=
| ChangeUrl (v : string)
| ChangeFormat (v : string)
| ChangeQuality (v : string)
| ClickLogViewer
| LogViewerOpenChange (v : bool)
| DirectorySelected (selected : option string)
| ClickFetchInfo
| ClickDownload
| ListenSettled (tid : nat) (r : Settled unit)
| InfoSettled (tid : nat) (r : Settled (list QualityOption.t))
| DownloadSettled (tid : nat) (r : Settled unit)
| Emit (c : Channel) (payload : Payload c).

(** The values of the three format [SelectItem]s (App.tsx 196-198). *)
Definition formatValues : list string := ["video+audio"; "audio"; "video"].

Definition resume_invoke (tid : nat) (ev : Event) (w : World) (cmd : Command)
  : (Settled (Reply cmd) -> Prog) -> World :=
  match cmd with
  | get_video_info _ => fun k =>
      match ev with
      | InfoSettled _ r => exec tid (k r) (wake tid w)
      | _ => w
      end
  | download_media _ => fun k =>
      match ev with
      | DownloadSettled _ r => exec tid (k r) (wake tid w)
      | _ => w
      end
  end.

Definition step (w : World) (ev : Event) : World :=
  match ev with
  | ChangeUrl v => activate (setUrl v ;; Return) w
  | ChangeFormat v =>
      if bool_decide (v ∈ formatValues)
      then activate (setFormat v ;; Return) w else w
  | ChangeQuality v =>
      if bool_decide (v ∈ map SelectItem.value (qualityItems (state w)))
      then activate (setQuality v ;; Return) w else w
  | ClickLogViewer => activate (setIsLogViewerOpen true ;; Return) w
  | LogViewerOpenChange v => activate (setIsLogViewerOpen v ;; Return) w
  | DirectorySelected selected => activate (onDirectorySelected selected) w
  | ClickFetchInfo =>
      if fetchButton_disabled (state w) then w
      else activate (handleFetchVideoInfo (state w)) w
  | ClickDownload =>
      if downloadButton_disabled (state w) then w
      else activate (handleDownload (state w)) w
  | ListenSettled tid r =>
      match pending w !! tid with
      | Some (Listen c h k) =>
          match r with
          | Fulfilled _ =>
              exec tid (k (Fulfilled (next_id w))) (register c h (wake tid w))
          | Rejected error => exec tid (k (Rejected error)) (wake tid w)
          end
      | _ => w
      end
  | InfoSettled tid _ | DownloadSettled tid _ =>
      match pending w !! tid with
      | Some (Invoke cmd k) => resume_invoke tid ev w cmd k
      | _ => w
      end
  | Emit c payload => deliver c payload w
  end.

Definition run (w : World) (evs : list Event) : World := fold_left step evs w.

(** The component after its first render: the cells hold their initial
    values and the mount effect has run. *)
Definition boot : World := mkWorld AppState.initial [] ∅ 0 [].
Definition init : World := activate useEffect_mount boot.

Definition reachable (w : World) : Prop := ∃ evs, w = run init evs.

(** What an activation is waiting for. *)
Definition awaits_listen (w : World) (tid : nat) : bool :=
  match pending w !! tid with
  | Some (Listen _ _ _) => true
  | _ => false
  end.

Definition awaits_invoke (w : World) (tid : nat) : option Command :=
  match pending w !! tid with
  | Some (Invoke cmd _) => Some cmd
  | _ => None
  end.

(** ** The suspension points of the handlers

    The nodes at which the two handlers wait, named so that statements
    about suspended activations can refer to them. Each is the
    corresponding sub-term of the handler ([handleDownload_unfold],
    [handleFetchVideoInfo_unfold]). *)

Definition fetch_settled (settled : Settled (list QualityOption.t)) : Prog :=
  match settled with
  | Fulfilled qualities =>
      setAvailableQualities qualities ;;
      toast_success "Video info fetched successfully!" ;;
      setIsFetchingInfo false ;;
      Return
  | Rejected error =>
      console_error error ;;
      toast_error ("Failed to fetch video info: " +:+ error) ;;
      setIsFetchingInfo false ;;
      Return
  end.

Definition fetch_invoke (render : AppState.t) : Prog :=
  Invoke (get_video_info (url render)) fetch_settled.

Definition request_of (render : AppState.t) : DownloadRequest.t :=
  DownloadRequest.mk (url render) (format render) (quality render)
                     (downloadPath render).

Definition download_settled (unlisten : UnlistenFn) (settled : Settled unit)
  : Prog :=
  match settled with
  | Fulfilled _ =>
      toast_success "Download started successfully!" ;;
      setProgress 100 ;;
      setIsDownloading false ;;
      call_unlisten unlisten ;;
      Return
  | Rejected error =>
      console_error error ;;
      toast_error ("Failed to start download: " +:+ error) ;;
      setIsDownloading false ;;
      call_unlisten unlisten ;;
      Return
  end.

Definition download_invoke (render : AppState.t) (unlisten : UnlistenFn)
  : Prog :=
  Invoke (download_media (request_of render)) (download_settled unlisten).

Definition download_listened (render : AppState.t)
           (listened : Settled UnlistenFn) : Prog :=
  match listened with
  | Rejected error => Throw error
  | Fulfilled unlisten => download_invoke render unlisten
  end.

Definition download_listen (render : AppState.t) : Prog :=
  Listen download_progress onDownloadProgress (download_listened render).

(** ** Definitions used in the statements and proofs *)

(** Unfold the primitive world updates. *)
Ltac wsimpl_once :=
  simpl in *;
  unfold activate, suspend, perform, uncaught, fresh, wake, register in *.

Ltac wsimpl := repeat progress wsimpl_once.

(** The activation an event settles, if it is a settlement. *)
Definition settles (ev : Event) : option nat :=
  match ev with
  | ListenSettled tid _ | InfoSettled tid _ | DownloadSettled tid _ => Some tid
  | _ => None
  end.

(** Where an activation of [handleDownload] can be. *)
Definition download_at (render : AppState.t) (o : option Prog) : Prop :=
  o = None ∨ o = Some (download_listen render)
  ∨ ∃ unlisten, o = Some (download_invoke render unlisten).

(** Where an activation of [handleFetchVideoInfo] can be. *)
Definition fetch_at (render : AppState.t) (o : option Prog) : Prop :=
  o = None ∨ o = Some (fetch_invoke render).

(** A world in which the log subscription is active and a URL was typed. *)
Definition ready : World :=
  run init [ListenSettled 0 (Fulfilled ());
            ChangeUrl "https://www.youtube.com/watch?v=abc123"].

(** [ready] with the format and quality of the scenario selected. *)
Definition ready_audio_140 : World :=
  run ready
    [ClickFetchInfo;
     InfoSettled 3 (Fulfilled [QualityOption.mk "137" "1080p" "video";
                               QualityOption.mk "140" "128kbps" "audio"]);
     ChangeFormat "audio";
     ChangeQuality "140"].

Definition log_listener : Listener := mkListener download_log onDownloadLog.
Definition progress_listener : Listener :=
  mkListener download_progress onDownloadProgress.

(** The registrations that hear channel [c]. *)
Definition heard (c : Channel) (ls : list (UnlistenFn * Listener))
  : list (UnlistenFn * Listener) :=
  filter (λ l, channel l.2 = c) ls.

(** The callback the component registers on each channel. *)
Definition callback (c : Channel) : Payload c → Prog :=
  match c with
  | download_log => onDownloadLog
  | download_progress => onDownloadProgress
  end.

Definition is_download (p : Prog) : bool :=
  match p with
  | Listen download_progress _ _ => true
  | Invoke (download_media _) _ => true
  | _ => false
  end.

(** How often the trace records a call of the [UnlistenFn] [u]. *)
Fixpoint releases (u : UnlistenFn) (tr : list Entry) : nat :=
  match tr with
  | [] => 0
  | Did _ (call_unlisten u') :: tr' =>
      (if decide (u' = u) then 1 else 0) + releases u tr'
  | _ :: tr' => releases u tr'
  end.

(** The suspended activations are at one of the four [await]s of the
    source. *)
Inductive known : Prog → Prop :=
| known_mount : known useEffect_mount
| known_fetch render : known (fetch_invoke render)
| known_download_listen render : known (download_listen render)
| known_download_invoke render u : known (download_invoke render u).

Record Inv (w : World) : Prop := mkInv {
  inv_pending : ∀ tid p, pending w !! tid = Some p →
                         tid < next_id w ∧ known p;
  inv_mount : ∀ tid, pending w !! tid = Some useEffect_mount →
                     tid = 0 ∧ heard download_log (listeners w) = [];
  inv_downloading : ∀ tid p, pending w !! tid = Some p →
                             is_download p = true →
                             isDownloading (state w) = true;
  inv_single : ∀ t1 t2 p1 p2,
      pending w !! t1 = Some p1 → is_download p1 = true →
      pending w !! t2 = Some p2 → is_download p2 = true → t1 = t2;
  inv_listen : ∀ tid render,
      pending w !! tid = Some (download_listen render) →
      heard download_progress (listeners w) = [];
  inv_invoke : ∀ tid render u,
      pending w !! tid = Some (download_invoke render u) →
      (u, progress_listener) ∈ listeners w;
  inv_owner : heard download_progress (listeners w) ≠ [] →
              ∃ tid render u,
                pending w !! tid = Some (download_invoke render u);
  inv_listeners : ∀ u l, (u, l) ∈ listeners w →
                         u < next_id w
                         ∧ (l = log_listener ∨ l = progress_listener);
  inv_nodup : NoDup (listeners w).*1;
  inv_log_count : length (heard download_log (listeners w)) ≤ 1;
  inv_progress_count : length (heard download_progress (listeners w)) ≤ 1;
  inv_released : ∀ u, 0 < releases u (trace w) →
                      u < next_id w ∧ u ∉ (listeners w).*1
}.

(** Perform a list of actions in activation [tid]. *)
Definition acts_at (tid : nat) (acts : list Action) (w : World) : World :=
  fold_left (λ w a, perform tid a w) acts w.

(** The events whose whole effect is one activation that performs a few
    setters or notifications. *)
Inductive simple (w : World) : Event → list Action → Prop :=
| simple_url v : simple w (ChangeUrl v) [setUrl v]
| simple_format v :
    v ∈ formatValues → simple w (ChangeFormat v) [setFormat v]
| simple_quality v :
    v ∈ map SelectItem.value (qualityItems (state w)) →
    simple w (ChangeQuality v) [setQuality v]
| simple_click_viewer : simple w ClickLogViewer [setIsLogViewerOpen true]
| simple_viewer v : simple w (LogViewerOpenChange v) [setIsLogViewerOpen v]
| simple_directory_none selected : simple w (DirectorySelected selected) []
| simple_directory path :
    simple w (DirectorySelected (Some path)) [setDownloadPath (Some path)]
| simple_fetch_empty :
    fetchButton_disabled (state w) = false →
    not_ (url (state w)) = true →
    simple w ClickFetchInfo [toast_error "Please enter a YouTube URL"]
| simple_download_empty :
    downloadButton_disabled (state w) = false →
    not_ (url (state w)) = true →
    simple w ClickDownload [toast_error "Please enter a YouTube URL"]
| simple_emit_log payload :
    heard download_log (listeners w) ≠ [] →
    simple w (Emit download_log payload)
      [setLogs_fn (λ prev,
         prev ++ [LogMessage.mk (BackendLogMessage.message_type payload)
                                (BackendLogMessage.message payload)])]
| simple_emit_progress payload :
    heard download_progress (listeners w) ≠ [] →
    simple w (Emit download_progress payload)
      [setProgress (ProgressUpdate.progress payload)].

(** Every step of a reachable world, written out as the world it
    produces; [step_Step] derives it from [step]. *)
Inductive Step (w : World) : Event → World → Prop :=
| Step_noop ev :
    (∀ c payload, ev = Emit c payload → heard c (listeners w) = []) →
    Step w ev w
| Step_simple ev acts :
    simple w ev acts →
    Step w ev (acts_at (next_id w) acts (fresh w))
| Step_fetch_start :
    fetchButton_disabled (state w) = false →
    not_ (url (state w)) = false →
    Step w ClickFetchInfo
      (suspend (next_id w) (fetch_invoke (state w))
         (call_invoke (get_video_info (url (state w))))
         (acts_at (next_id w) [setIsFetchingInfo true] (fresh w)))
| Step_download_start :
    downloadButton_disabled (state w) = false →
    not_ (url (state w)) = false →
    Step w ClickDownload
      (suspend (next_id w) (download_listen (state w))
         (call_listen download_progress)
         (acts_at (next_id w)
            [setIsDownloading true; setProgress 0; setLogs []] (fresh w)))
| Step_mount_settled tid r :
    pending w !! tid = Some useEffect_mount →
    Step w (ListenSettled tid r)
      (match r with
       | Fulfilled _ => register download_log onDownloadLog (wake tid w)
       | Rejected _ => wake tid w
       end)
| Step_listen_granted tid render ok :
    pending w !! tid = Some (download_listen render) →
    Step w (ListenSettled tid (Fulfilled ok))
      (suspend tid (download_invoke render (next_id w))
         (call_invoke (download_media (request_of render)))
         (register download_progress onDownloadProgress (wake tid w)))
| Step_listen_rejected tid render error :
    pending w !! tid = Some (download_listen render) →
    Step w (ListenSettled tid (Rejected error))
      (uncaught tid error (wake tid w))
| Step_fetch_fulfilled tid render qualities :
    pending w !! tid = Some (fetch_invoke render) →
    Step w (InfoSettled tid (Fulfilled qualities))
      (acts_at tid
         [setAvailableQualities qualities;
          toast_success "Video info fetched successfully!";
          setIsFetchingInfo false]
         (wake tid w))
| Step_fetch_rejected tid render error :
    pending w !! tid = Some (fetch_invoke render) →
    Step w (InfoSettled tid (Rejected error))
      (acts_at tid
         [console_error error;
          toast_error ("Failed to fetch video info: " +:+ error);
          setIsFetchingInfo false]
         (wake tid w))
| Step_download_fulfilled tid render u ok :
    pending w !! tid = Some (download_invoke render u) →
    Step w (DownloadSettled tid (Fulfilled ok))
      (acts_at tid
         [toast_success "Download started successfully!";
          setProgress 100;
          setIsDownloading false;
          call_unlisten u]
         (wake tid w))
| Step_download_rejected tid render u error :
    pending w !! tid = Some (download_invoke render u) →
    Step w (DownloadSettled tid (Rejected error))
      (acts_at tid
         [console_error error;
          toast_error ("Failed to start download: " +:+ error);
          setIsDownloading false;
          call_unlisten u]
         (wake tid w)).

(** The [UnlistenFn] a suspended [download_media] call will release. *)
Definition unlisten_of (p : Prog) : option UnlistenFn :=
  match p with
  | Invoke cmd k =>
      match cmd return (Settled (Reply cmd) → Prog) → option UnlistenFn with
      | download_media _ => λ k,
          match k (Fulfilled ()) with
          | Do _ (Do _ (Do _ (Do (call_unlisten u) _))) => Some u
          | _ => None
          end
      | get_video_info _ => λ _, None
      end k
  | _ => None
  end.

(** What the [download-log] callback stores for a payload. *)
Definition toLogMessage (payload : BackendLogMessage.t) : LogMessage.t :=
  LogMessage.mk (BackendLogMessage.message_type payload)
                (BackendLogMessage.message payload).

(** The log messages of the [download-log] emissions among [evs], in
    order. *)
Fixpoint log_emissions (evs : list Event) : list LogMessage.t :=
  match evs with
  | [] => []
  | Emit c payload :: evs' =>
      match c return Payload c → list LogMessage.t with
      | download_log => λ m, toLogMessage m :: log_emissions evs'
      | download_progress => λ _, log_emissions evs'
      end payload
  | _ :: evs' => log_emissions evs'
  end.

(** The mount effect's subscription is active. *)
Definition log_subscribed (w : World) : bool :=
  match heard download_log (listeners w) with
  | [] => false
  | _ :: _ => true
  end.

Definition is_download_click (ev : Event) : bool :=
  match ev with
  | ClickDownload => true
  | _ => false
  end.

(** The result of the last [get_video_info] call that was fulfilled during
    [evs], starting from [w]; [acc] is the last one before [w]. *)
Fixpoint last_fetch (w : World) (evs : list Event)
         (acc : option (list QualityOption.t))
  : option (list QualityOption.t) :=
  match evs with
  | [] => acc
  | ev :: evs' =>
      last_fetch (step w ev) evs'
        (match ev with
         | InfoSettled tid (Fulfilled qualities) =>
             match awaits_invoke w tid with
             | Some (get_video_info _) => Some qualities
             | _ => acc
             end
         | _ => acc
         end)
  end.

Definition fallbackValues : list string := ["best"; "worst"].

Definition is_progress_emit (ev : Event) : bool :=
  match ev with
  | Emit download_progress _ => true
  | _ => false
  end.

(** After the scenario's fetch: two qualities are offered, the selection
    is still the initial ["best"]. *)
Definition fetched : list Event :=
  [ListenSettled 0 (Fulfilled ());
   ChangeUrl "https://www.youtube.com/watch?v=abc123";
   ClickFetchInfo;
   InfoSettled 3 (Fulfilled [QualityOption.mk "137" "1080p" "video";
                             QualityOption.mk "140" "128kbps" "audio"])].

(** ** Further observations on a world *)

(** The channel an activation is waiting to subscribe to. *)
Definition awaits_channel (w : World) (tid : nat) : option Channel :=
  match pending w !! tid with
  | Some (Listen c _ _) => Some c
  | _ => None
  end.

(** A download is between its click and the settlement of its call. *)
Definition in_flight (w : World) (tid : nat) : bool :=
  match pending w !! tid with
  | Some p => is_download p
  | None => false
  end.

(** How often the trace records a [download_media] call. *)
Fixpoint download_calls (tr : list Entry) : nat :=
  match tr with
  | [] => 0
  | Called _ (call_invoke (download_media _)) :: tr' => S (download_calls tr')
  | _ :: tr' => download_calls tr'
  end.

(** A download that can no longer settle: the flag is raised and no
    download activation is left to lower it. *)
Record Stuck (w : World) : Prop := mkStuck {
  stuck_inv : Inv w;
  stuck_flag : isDownloading (state w) = true;
  stuck_none : ∀ tid p, pending w !! tid = Some p → is_download p = false
}.

(** ** Well-formed requests *)

(** What the form can put into a [download_media] request. *)
Definition wf_request (req : DownloadRequest.t) : Prop :=
  DownloadRequest.url req ≠ ""
  ∧ DownloadRequest.format req ∈ formatValues
  ∧ DownloadRequest.downloadPath req ≠ Some "".

(** The request a download waiting for its subscription will send. *)
Definition request_at_listen (p : Prog) : option DownloadRequest.t :=
  match p with
  | Listen _ _ k =>
      match k (Fulfilled 0) with
      | Invoke (download_media req) _ => Some req
      | _ => None
      end
  | _ => None
  end.

Definition wf_call (c : Call) : Prop :=
  match c with
  | call_listen _ => True
  | call_invoke (get_video_info u) => u ≠ ""
  | call_invoke (download_media req) => wf_request req
  end.

Definition wf_entry (e : Entry) : Prop :=
  match e with
  | Called _ c => wf_call c
  | _ => True
  end.

Record Formed (w : World) : Prop := mkFormed {
  formed_format : format (state w) ∈ formatValues;
  formed_path : downloadPath (state w) ≠ Some "";
  formed_listen : ∀ tid render,
      pending w !! tid = Some (download_listen render) →
      wf_request (request_of render);
  formed_trace : Forall wf_entry (trace w)
}.

(** The value of the read-only download location input (App.tsx 165-169):
    [downloadPath || "Default (Downloads folder)"]. *)
Definition downloadLocationValue (s : AppState.t) : string :=
  match downloadPath s with
  | Some path => if not_ path then "Default (Downloads folder)" else path
  | None => "Default (Downloads folder)"
  end.

(** ** The fetch flag *)

Definition is_fetch (p : Prog) : bool :=
  match p with
  | Invoke (get_video_info _) _ => true
  | _ => false
  end.

Record Fetching (w : World) : Prop := mkFetching {
  fetching_flag : ∀ tid p, pending w !! tid = Some p → is_fetch p = true →
                           isFetchingInfo (state w) = true;
  fetching_some : isFetchingInfo (state w) = true →
                  ∃ tid p, pending w !! tid = Some p ∧ is_fetch p = true;
  fetching_single : ∀ t1 t2 p1 p2,
      pending w !! t1 = Some p1 → is_fetch p1 = true →
      pending w !! t2 = Some p2 → is_fetch p2 = true → t1 = t2
}.

(** ** The log viewer *)

Module LogLine.
Record t := mk { className : string; tag : string; text : string }.
End LogLine.

(** The rows of [LogViewer] (App.tsx 317-328): one [div] per log message,
    in order, red with the tag [ERR] when the type is ["stderr"], grey with
    the tag [OUT] otherwise. *)
Definition LogViewer_rows (logs : list LogMessage.t) : list LogLine.t :=
  map (λ log,
         LogLine.mk
           ((if String.eqb (LogMessage.type log) "stderr"
             then "text-red-400" else "text-zinc-300")
            +:+ " break-all whitespace-pre-wrap")
           (if String.eqb (LogMessage.type log) "stderr"
            then "ERR" else "OUT")
           (LogMessage.message log))
      logs.

(** The events of the fetch button and of its call. *)
Definition is_fetch_event (ev : Event) : bool :=
  match ev with
  | ClickFetchInfo | InfoSettled _ _ => true
  | _ => false
  end.

(** * The title bar ([src/components/TitleBar.tsx])

    The component has one cell, [isMaximized], a mount effect that checks
    the window and subscribes to its resize events, and three buttons. The
    window is the environment: the model records the commands sent to it
    and lets it answer [isMaximized()] with any value at any time. *)

Module TitleBar.

(** The methods called on [getCurrentWindow()] whose promise is dropped. *)
Inductive WindowCommand :=
| win_minimize
| win_maximize
| win_unmaximize
| win_close.

Inductive Task :=
| Done
| Fail (error : string)
| SetIsMaximized (v : bool) (k : Task)
| Win (c : WindowCommand) (k : Task)
| AwaitIsMaximized (k : Settled bool → Task)
| ListenResize (handler : Task) (k : Settled UnlistenFn → Task).

(** [checkMaximized] (lines 10-13). *)
Definition checkMaximized : Task :=
  AwaitIsMaximized (λ answered,
    match answered with
    | Fulfilled maximized => SetIsMaximized maximized Done
    | Rejected error => Fail error
    end).

(** The body of the mount effect (lines 9-22): [checkMaximized()] is
    called without [await], and the promise of [listen] is kept. *)
Definition useEffect_check : Task := checkMaximized.
Definition useEffect_listen : Task :=
  ListenResize checkMaximized (λ _, Done).

(** [minimize] (line 24). *)
Definition minimize : Task := Win win_minimize Done.

(** [toggleMaximize] (lines 25-34). *)
Definition toggleMaximize : Task :=
  AwaitIsMaximized (λ answered,
    match answered with
    | Rejected error => Fail error
    | Fulfilled maximized =>
        if maximized then
          Win win_unmaximize (SetIsMaximized (negb maximized) Done)
        else
          Win win_maximize (SetIsMaximized (negb maximized) Done)
    end).

(** [close] (line 35). *)
Definition close : Task := Win win_close Done.

(** The icon of the green button (lines 59-63). *)
Inductive Icon := Maximize2 | Square.
Definition toggleIcon (isMaximized : bool) : Icon :=
  if isMaximized then Maximize2 else Square.

Inductive Entry :=
| Set_ (tid : nat) (v : bool)
| Sent (tid : nat) (c : WindowCommand)
| Asked (tid : nat)
| Listened (tid : nat)
| Uncaught (tid : nat) (error : string).

Record World := mkWorld {
  isMaximized : bool;
  (** the handlers registered for ["tauri://resize"] *)
  listeners : list (UnlistenFn * Task);
  pending : gmap nat Task;
  next_id : nat;
  trace : list Entry
}.

Fixpoint exec (tid : nat) (p : Task) (w : World) : World :=
  match p with
  | Done => w
  | Fail error =>
      mkWorld (isMaximized w) (listeners w) (pending w) (next_id w)
              (trace w ++ [Uncaught tid error])
  | SetIsMaximized v k =>
      exec tid k (mkWorld v (listeners w) (pending w) (next_id w)
                          (trace w ++ [Set_ tid v]))
  | Win c k =>
      exec tid k (mkWorld (isMaximized w) (listeners w) (pending w)
                          (next_id w) (trace w ++ [Sent tid c]))
  | AwaitIsMaximized _ =>
      mkWorld (isMaximized w) (listeners w) (<[tid := p]> (pending w))
              (next_id w) (trace w ++ [Asked tid])
  | ListenResize _ _ =>
      mkWorld (isMaximized w) (listeners w) (<[tid := p]> (pending w))
              (next_id w) (trace w ++ [Listened tid])
  end.

Definition activate (p : Task) (w : World) : World :=
  exec (next_id w) p
       (mkWorld (isMaximized w) (listeners w) (pending w) (S (next_id w))
                (trace w)).

Definition wake (tid : nat) (w : World) : World :=
  mkWorld (isMaximized w) (listeners w) (delete tid (pending w)) (next_id w)
          (trace w).

Inductive Event :=
| ClickClose
| ClickMinimize
| ClickToggleMaximize
| Resize
| Answered (tid : nat) (r : Settled bool)
| ListenSettled (tid : nat) (r : Settled unit).

Definition step (w : World) (ev : Event) : World :=
  match ev with
  | ClickClose => activate close w
  | ClickMinimize => activate minimize w
  | ClickToggleMaximize => activate toggleMaximize w
  | Resize => fold_left (λ w' l, activate l.2 w') (listeners w) w
  | Answered tid r =>
      match pending w !! tid with
      | Some (AwaitIsMaximized k) => exec tid (k r) (wake tid w)
      | _ => w
      end
  | ListenSettled tid r =>
      match pending w !! tid with
      | Some (ListenResize handler k) =>
          match r with
          | Fulfilled _ =>
              exec tid (k (Fulfilled (next_id w)))
                   (mkWorld (isMaximized w)
                            (listeners w ++ [(next_id w, handler)])
                            (delete tid (pending w)) (S (next_id w))
                            (trace w))
          | Rejected error => exec tid (k (Rejected error)) (wake tid w)
          end
      | _ => w
      end
  end.

Definition run (w : World) (evs : list Event) : World := fold_left step evs w.

(** The first render ([useState(false)]) followed by the mount effect. *)
Definition boot : World := mkWorld false [] ∅ 0 [].
Definition init : World :=
  activate useEffect_listen (activate useEffect_check boot).

Definition awaits_answer (w : World) (tid : nat) : bool :=
  match pending w !! tid with
  | Some (AwaitIsMaximized _) => true
  | _ => false
  end.

(** The commands sent to the window, in order. *)
Fixpoint sent (tr : list Entry) : list WindowCommand :=
  match tr with
  | [] => []
  | Sent _ c :: tr' => c :: sent tr'
  | _ :: tr' => sent tr'
  end.

Definition is_click (ev : Event) : bool :=
  match ev with
  | ClickClose | ClickMinimize | ClickToggleMaximize => true
  | _ => false
  end.

Definition settles (ev : Event) : option nat :=
  match ev with
  | Answered tid _ | ListenSettled tid _ => Some tid
  | _ => None
  end.

(** Only checks are waiting and listening. *)
Record Checking (w : World) : Prop := mkChecking {
  checking_pending : ∀ tid p, pending w !! tid = Some p →
                              p = checkMaximized ∨ p = useEffect_listen;
  checking_listeners : ∀ l, l ∈ listeners w → l.2 = checkMaximized
}.

End TitleBar.

(** * The setup script (the PowerShell script under [src/unnamed])

    The script talks to the machine through [Get-Command], [winget],
    the registry's [Path], the version output of the tools and
    [Get-Location]. These are the [Host]; the script is a function of it.
    [$isAdmin] (line 10) is computed and never used. *)

Module Setup.

Inductive Color := Cyan | Yellow | Red | Green.

Inductive Effect :=
| WriteHost (text : string) (color : option Color)
| WingetInstall (package : string) (flags : list string)
| UpdatePath
| StartSleep (seconds : nat)
| StartProcess (file : string) (arguments : list (list string)).

(** [exit 1] and the bare [exit] of the last line. *)
Inductive Exit := exit_code (code : Z) | exit_bare.

Record Host (Env : Type) := mkHost {
  (** [Get-Command $Command -ErrorAction SilentlyContinue] found it *)
  Get_Command : Env → string → bool;
  (** what [winget install <package> ...] does to the machine *)
  winget_install : string → Env → Env;
  (** what re-reading [Path] from the registry does to the session *)
  refresh_Path : Env → Env;
  (** the captured output of a version command *)
  capture : Env → string → string;
  Get_Location : Env → string
}.
Arguments Get_Command {Env}.
Arguments winget_install {Env}.
Arguments refresh_Path {Env}.
Arguments capture {Env}.
Arguments Get_Location {Env}.

Record State (Env : Type) := mkState {
  env : Env;
  console : list Effect
}.
Arguments mkState {Env}.
Arguments env {Env}.
Arguments console {Env}.

Definition Write_Host {Env} (text : string) (color : option Color)
           (s : State Env) : State Env :=
  mkState (env s) (console s ++ [WriteHost text color]).

(** [Test-CommandExists] (lines 13-16). *)
Definition Test_CommandExists {Env} (H : Host Env) (s : State Env)
           (Command : string) : bool :=
  Get_Command H (env s) Command.

(** [Update-Path] (lines 19-21). *)
Definition Update_Path {Env} (H : Host Env) (s : State Env) : State Env :=
  mkState (refresh_Path H (env s)) (console s ++ [UpdatePath]).

Definition winget_flags : list string :=
  ["-e"; "--silent"; "--accept-package-agreements";
   "--accept-source-agreements"].

Definition winget {Env} (H : Host Env) (package : string) (s : State Env)
  : State Env :=
  mkState (winget_install H package (env s))
          (console s ++ [WingetInstall package winget_flags]).

(** The shape shared by the four tool blocks (lines 30-104): a blank line
    and the heading, then either the installation, the path update and the
    report of its outcome, or the version already installed. *)
Definition tool_block {Env} (H : Host Env)
           (heading command installing package installed restart : string)
           (already : Env → string) (s : State Env) : State Env :=
  let s := Write_Host "" None s in
  let s := Write_Host heading (Some Yellow) s in
  if negb (Test_CommandExists H s command) then
    let s := Write_Host installing (Some Cyan) s in
    let s := winget H package s in
    let s := Update_Path H s in
    if Test_CommandExists H s command then
      Write_Host installed (Some Green) s
    else
      Write_Host restart (Some Yellow) s
  else
    Write_Host (already (env s)) (Some Green) s.

(** Lines 30-47. *)
Definition install_Rust {Env} (H : Host Env) : State Env → State Env :=
  tool_block H "[2/5] Checking for Rust..." "cargo"
    "  -> Installing Rust via rustup..." "Rustlang.Rustup"
    "  -> Rust installed successfully!"
    "  -> Rust installed. Please restart terminal and run this script again."
    (λ e, "  -> Rust already installed: " +:+ capture H e "cargo --version").

(** Lines 49-66. *)
Definition install_Node {Env} (H : Host Env) : State Env → State Env :=
  tool_block H "[3/5] Checking for Node.js..." "node"
    "  -> Installing Node.js LTS..." "OpenJS.NodeJS.LTS"
    "  -> Node.js installed successfully!"
    "  -> Node.js installed. Please restart terminal and run this script again."
    (λ e, "  -> Node.js already installed: " +:+ capture H e "node --version").

(** Lines 68-85. *)
Definition install_Bun {Env} (H : Host Env) : State Env → State Env :=
  tool_block H "[4/5] Checking for Bun..." "bun"
    "  -> Installing Bun..." "Oven-sh.Bun"
    "  -> Bun installed successfully!"
    "  -> Bun installed. Please restart terminal and run this script again."
    (λ e, "  -> Bun already installed: " +:+ capture H e "bun --version").

(** Lines 87-104. *)
Definition install_FFmpeg {Env} (H : Host Env) : State Env → State Env :=
  tool_block H "[5/5] Checking for FFmpeg..." "ffmpeg"
    "  -> Installing FFmpeg..." "Gyan.FFmpeg"
    "  -> FFmpeg installed successfully!"
    "  -> FFmpeg installed. Please restart terminal and run this script again."
    (λ e, "  -> FFmpeg already installed: "
          +:+ capture H e "ffmpeg -version | Select-Object -First 1").

(** The here-string [$startupCommand] (lines 118-130), line by line. *)
Definition startupCommand (currentDir : string) : list string :=
  ["Set-Location '" +:+ currentDir +:+ "'";
   "Write-Host ''";
   "Write-Host '============================================' -ForegroundColor Green";
   "Write-Host '     All dependencies installed!' -ForegroundColor Green";
   "Write-Host '============================================' -ForegroundColor Green";
   "Write-Host ''";
   "Write-Host 'Run these commands to start the app:' -ForegroundColor Yellow";
   "Write-Host ''";
   "Write-Host '  bun install' -ForegroundColor Cyan";
   "Write-Host '  bun run tauri dev' -ForegroundColor Cyan";
   "Write-Host ''"].

(** Lines 106-135. *)
Definition finish {Env} (H : Host Env) (s : State Env) : State Env :=
  let s := Write_Host "" None s in
  let s := Write_Host "============================================"
                      (Some Cyan) s in
  let s := Write_Host "          Installation Complete!           "
                      (Some Cyan) s in
  let s := Write_Host "============================================"
                      (Some Cyan) s in
  let s := Write_Host "" None s in
  let s := Write_Host "Restarting terminal to apply changes..."
                      (Some Yellow) s in
  let s := mkState (env s) (console s ++ [StartSleep 2]) in
  let currentDir := Get_Location H (env s) in
  mkState (env s)
          (console s ++
           [StartProcess "powershell"
              [["-NoExit"]; ["-Command"]; startupCommand currentDir]]).

(** The whole script. *)
Definition setup {Env} (H : Host Env) (e : Env) : State Env * Exit :=
  let s := mkState e [] in
  let s := Write_Host "============================================"
                      (Some Cyan) s in
  let s := Write_Host "   Frieren Downloader - Dependency Setup   "
                      (Some Cyan) s in
  let s := Write_Host "============================================"
                      (Some Cyan) s in
  let s := Write_Host "" None s in
  let s := Write_Host "[1/5] Checking for winget..." (Some Yellow) s in
  if negb (Test_CommandExists H s "winget") then
    (Write_Host
       "ERROR: winget is not installed. Please install App Installer from Microsoft Store."
       (Some Red) s,
     exit_code 1)
  else
    let s := Write_Host "  -> winget found!" (Some Green) s in
    let s := install_Rust H s in
    let s := install_Node H s in
    let s := install_Bun H s in
    let s := install_FFmpeg H s in
    (finish H s, exit_bare).

(** The packages handed to [winget install], in order. *)
Fixpoint installs (out : list Effect) : list string :=
  match out with
  | [] => []
  | WingetInstall package _ :: out' => package :: installs out'
  | _ :: out' => installs out'
  end.

(** The processes started, in order. *)
Fixpoint started (out : list Effect) : list string :=
  match out with
  | [] => []
  | StartProcess file _ :: out' => file :: started out'
  | _ :: out' => started out'
  end.

(** The commands the script looks for and the packages that provide
    them. *)
Definition tools : list (string * string) :=
  [("cargo", "Rustlang.Rustup"); ("node", "OpenJS.NodeJS.LTS");
   ("bun", "Oven-sh.Bun"); ("ffmpeg", "Gyan.FFmpeg")].

(** A machine on which installing a package and refreshing the path never
    make a command disappear. *)
Definition keeps_commands {Env} (H : Host Env) : Prop :=
  ∀ e package command,
    Get_Command H e command = true →
    Get_Command H (refresh_Path H (winget_install H package e)) command = true.

(** A machine given by the commands on its path: [winget] installs a
    package by adding the commands of [provides], which are found once the
    path is refreshed. *)
Definition list_host (provides : string → list string)
  : Host (list string * list string) :=
  mkHost (list string * list string)
         (λ e command, bool_decide (command ∈ e.1))
         (λ package e, (e.1, e.2 ++ provides package))
         (λ e, (e.1 ++ e.2, []))
         (λ e command, command +:+ ": 1.0")
         (λ e, "C:\Frieren").

End Setup.

(** * Properties *)

Lemma handleFetchVideoInfo_unfold render :
  handleFetchVideoInfo render =
  if not_ (url render) then
    toast_error "Please enter a YouTube URL" ;; Return
  else
    setIsFetchingInfo true ;; fetch_invoke render.
Proof. reflexivity. Qed.

Lemma handleDownload_unfold render :
  handleDownload render =
  if not_ (url render) then
    toast_error "Please enter a YouTube URL" ;; Return
  else
    setIsDownloading true ;; setProgress 0 ;; setLogs [] ;;
    download_listen render.
Proof. reflexivity. Qed.

Lemma not_false s : not_ s = false <-> s <> "".
Proof. destruct s; simpl; split; congruence. Qed.

(** ** Basic facts about activations *)

Lemma exec_next_id tid p w : next_id (exec tid p w) = next_id w.
Proof. revert w; induction p; intros w; simpl; auto. by rewrite IHp. Qed.

Lemma exec_trace tid p w : ∃ rest, trace (exec tid p w) = trace w ++ rest.
Proof.
  revert w; induction p; intros w; simpl; eauto.
  - exists []. by rewrite app_nil_r.
  - destruct (IHp (perform tid a w)) as [rest ->]. simpl.
    rewrite <- app_assoc. eauto.
Qed.

Lemma exec_pending_ne tid tid' p w :
  tid' ≠ tid → pending (exec tid p w) !! tid' = pending w !! tid'.
Proof.
  intros Hne. revert w; induction p; intros w; simpl; auto.
  - by rewrite IHp.
  - by rewrite lookup_insert_ne.
  - by rewrite lookup_insert_ne.
Qed.

Lemma activate_next_id p w : next_id (activate p w) = S (next_id w).
Proof. unfold activate. by rewrite exec_next_id. Qed.

Lemma activate_trace p w : ∃ rest, trace (activate p w) = trace w ++ rest.
Proof. unfold activate. apply (exec_trace _ _ (fresh w)). Qed.

Lemma activate_pending_lt p w tid :
  tid < next_id w → pending (activate p w) !! tid = pending w !! tid.
Proof. intros H. unfold activate. rewrite exec_pending_ne; [done | lia]. Qed.

Lemma deliver_facts c payload ls w :
  let w' := fold_left (deliver1 c payload) ls w in
  next_id w ≤ next_id w'
  ∧ (∃ rest, trace w' = trace w ++ rest)
  ∧ ∀ tid, tid < next_id w → pending w' !! tid = pending w !! tid.
Proof.
  revert w; induction ls as [|l ls IH]; intros w; simpl.
  - split; [lia|]. split; [exists []; by rewrite app_nil_r | done].
  - specialize (IH (deliver1 c payload w l)). simpl in IH.
    destruct IH as (Hn & [rest Ht] & Hp).
    assert (next_id w ≤ next_id (deliver1 c payload w l)
            ∧ (∃ r, trace (deliver1 c payload w l) = trace w ++ r)
            ∧ ∀ tid, tid < next_id w →
                pending (deliver1 c payload w l) !! tid = pending w !! tid)
      as (Hn1 & [r1 Ht1] & Hp1).
    { unfold deliver1. destruct (decide _) as [e|]; simpl.
      - rewrite activate_next_id. split; [lia|].
        split; [apply activate_trace|]. intros; by apply activate_pending_lt.
      - split; [lia|]. split; [exists []; by rewrite app_nil_r | done]. }
    split; [lia|]. split.
    + exists (r1 ++ rest). rewrite Ht, Ht1. by rewrite <- app_assoc.
    + intros tid Htid. rewrite Hp by lia. by apply Hp1.
Qed.

Lemma resume_invoke_facts tid ev w cmd k :
  let w' := resume_invoke tid ev w cmd k in
  next_id w' = next_id w
  ∧ (∃ rest, trace w' = trace w ++ rest)
  ∧ ∀ tid', tid' ≠ tid → pending w' !! tid' = pending w !! tid'.
Proof.
  assert (Hw : next_id w = next_id w
    ∧ (∃ rest, trace w = trace w ++ rest)
    ∧ ∀ tid', tid' ≠ tid → pending w !! tid' = pending w !! tid').
  { split; [done|]. split; [exists []; by rewrite app_nil_r | done]. }
  assert (He : ∀ p, next_id (exec tid p (wake tid w)) = next_id w
    ∧ (∃ rest, trace (exec tid p (wake tid w)) = trace w ++ rest)
    ∧ ∀ tid', tid' ≠ tid →
        pending (exec tid p (wake tid w)) !! tid' = pending w !! tid').
  { intros p. rewrite exec_next_id. split; [done|].
    split; [apply (exec_trace tid p (wake tid w))|].
    intros tid' Hne. rewrite exec_pending_ne by done. simpl.
    by rewrite lookup_delete_ne. }
  destruct cmd; simpl; destruct ev; auto.
Qed.

Lemma step_facts w ev :
  next_id w ≤ next_id (step w ev)
  ∧ (∃ rest, trace (step w ev) = trace w ++ rest)
  ∧ ∀ tid, tid < next_id w → settles ev ≠ Some tid →
      pending (step w ev) !! tid = pending w !! tid.
Proof.
  assert (Hw : next_id w ≤ next_id w
    ∧ (∃ rest, trace w = trace w ++ rest)
    ∧ ∀ tid, tid < next_id w → settles ev ≠ Some tid →
        pending w !! tid = pending w !! tid).
  { split; [done|]. split; [exists []; by rewrite app_nil_r | done]. }
  assert (Ha : ∀ p, next_id w ≤ next_id (activate p w)
    ∧ (∃ rest, trace (activate p w) = trace w ++ rest)
    ∧ ∀ tid, tid < next_id w → settles ev ≠ Some tid →
        pending (activate p w) !! tid = pending w !! tid).
  { intros p. rewrite activate_next_id. split; [lia|].
    split; [apply activate_trace|]. intros; by apply activate_pending_lt. }
  destruct ev; unfold step; try apply Ha.
  - case_bool_decide; auto.
  - case_bool_decide; auto.
  - destruct (fetchButton_disabled _); auto.
  - destruct (downloadButton_disabled _); auto.
  - destruct (pending w !! tid) as [[]|]; try done.
    destruct r; rewrite exec_next_id; simpl.
    + split; [lia|]. split.
      * apply (exec_trace tid _ (register c handler0 (wake tid w))).
      * intros t Ht Hs. simpl in Hs.
        rewrite exec_pending_ne by congruence. simpl.
        rewrite lookup_delete_ne; [done | congruence].
    + split; [lia|]. split.
      * apply (exec_trace tid _ (wake tid w)).
      * intros t Ht Hs. simpl in Hs.
        rewrite exec_pending_ne by congruence. simpl.
        rewrite lookup_delete_ne; [done | congruence].
  - destruct (pending w !! tid) as [[]|]; try done.
    destruct (resume_invoke_facts tid (InfoSettled tid r) w cmd k)
      as (-> & ? & Hp).
    split; [lia|]. split; [done|]. intros t _ Hs. apply Hp. simpl in Hs. congruence.
  - destruct (pending w !! tid) as [[]|]; try done.
    destruct (resume_invoke_facts tid (DownloadSettled tid r) w cmd k)
      as (-> & ? & Hp).
    split; [lia|]. split; [done|]. intros t _ Hs. apply Hp. simpl in Hs. congruence.
  - destruct (deliver_facts c payload (listeners w) w) as (? & ? & Hp).
    split; [done|]. split; [done|]. intros; by apply Hp.
Qed.

Lemma run_app w evs1 evs2 : run w (evs1 ++ evs2) = run (run w evs1) evs2.
Proof. unfold run. by rewrite fold_left_app. Qed.

Lemma run_trace w evs : ∃ rest, trace (run w evs) = trace w ++ rest.
Proof.
  revert w; induction evs as [|ev evs IH]; intros w; unfold run in *; simpl.
  - exists []. by rewrite app_nil_r.
  - destruct (IH (step w ev)) as [r2 H2]. rewrite H2.
    destruct (step_facts w ev) as (_ & [r1 ->] & _).
    exists (r1 ++ r2). by rewrite <- app_assoc.
Qed.

(** ** Following one activation through a run *)

Lemma download_at_step render w ev tid :
  tid < next_id w →
  download_at render (pending w !! tid) →
  download_at render (pending (step w ev) !! tid).
Proof.
  intros Hlt Hat.
  destruct (decide (settles ev = Some tid)) as [Hs|Hs].
  2: { destruct (step_facts w ev) as (_ & _ & Hp). by rewrite Hp. }
  destruct Hat as [Hp|[Hp|[u Hp]]];
    destruct ev; simpl in Hs; try discriminate; inversion Hs; subst;
    unfold step; rewrite Hp; simpl;
    try (rewrite Hp; unfold download_at; by eauto).
  - destruct r; simpl.
    + right; right. exists (next_id w). by rewrite lookup_insert_eq.
    + left. by rewrite lookup_delete_eq.
  - left. destruct r; simpl; by rewrite lookup_delete_eq.
Qed.

Lemma download_at_run render w evs tid :
  tid < next_id w →
  download_at render (pending w !! tid) →
  download_at render (pending (run w evs) !! tid).
Proof.
  revert w; induction evs as [|ev evs IH]; intros w Hlt Hat; [done|].
  apply (IH (step w ev)).
  - destruct (step_facts w ev) as (? & _). lia.
  - by apply download_at_step.
Qed.

Lemma fetch_at_step render w ev tid :
  tid < next_id w →
  fetch_at render (pending w !! tid) →
  fetch_at render (pending (step w ev) !! tid).
Proof.
  intros Hlt Hat.
  destruct (decide (settles ev = Some tid)) as [Hs|Hs].
  2: { destruct (step_facts w ev) as (_ & _ & Hp). by rewrite Hp. }
  destruct Hat as [Hp|Hp];
    destruct ev; simpl in Hs; try discriminate; inversion Hs; subst;
    unfold step; rewrite Hp; simpl;
    try (rewrite Hp; unfold fetch_at; by eauto).
  left. destruct r; simpl; by rewrite lookup_delete_eq.
Qed.

Lemma fetch_at_run render w evs tid :
  tid < next_id w →
  fetch_at render (pending w !! tid) →
  fetch_at render (pending (run w evs) !! tid).
Proof.
  revert w; induction evs as [|ev evs IH]; intros w Hlt Hat; [done|].
  apply (IH (step w ev)).
  - destruct (step_facts w ev) as (? & _). lia.
  - by apply fetch_at_step.
Qed.

Lemma activate_handleDownload w :
  url (state w) ≠ "" →
  activate (handleDownload (state w)) w =
  mkWorld (apply_setter (setLogs [])
             (apply_setter (setProgress 0)
                (apply_setter (setIsDownloading true) (state w))))
          (listeners w)
          (<[next_id w := download_listen (state w)]> (pending w))
          (S (next_id w))
          (trace w ++ [Did (next_id w) (setIsDownloading true);
                       Did (next_id w) (setProgress 0);
                       Did (next_id w) (setLogs []);
                       Called (next_id w) (call_listen download_progress)]).
Proof.
  intros Hurl%not_false. unfold activate. rewrite handleDownload_unfold, Hurl.
  unfold download_listen; wsimpl. f_equal. by rewrite <- !app_assoc.
Qed.

Lemma activate_handleFetchVideoInfo w :
  url (state w) ≠ "" →
  activate (handleFetchVideoInfo (state w)) w =
  mkWorld (apply_setter (setIsFetchingInfo true) (state w))
          (listeners w)
          (<[next_id w := fetch_invoke (state w)]> (pending w))
          (S (next_id w))
          (trace w ++ [Did (next_id w) (setIsFetchingInfo true);
                       Called (next_id w)
                         (call_invoke (get_video_info (url (state w))))]).
Proof.
  intros Hurl%not_false. unfold activate.
  rewrite handleFetchVideoInfo_unfold, Hurl.
  unfold fetch_invoke; wsimpl. f_equal. by rewrite <- !app_assoc.
Qed.

Lemma download_at_activation w evs :
  url (state w) ≠ "" →
  download_at (state w)
    (pending (run (activate (handleDownload (state w)) w) evs) !! next_id w).
Proof.
  intros Hurl. apply download_at_run.
  - rewrite activate_next_id. lia.
  - rewrite activate_handleDownload by done. simpl.
    right; left. by rewrite lookup_insert_eq.
Qed.

Lemma fetch_at_activation w evs :
  url (state w) ≠ "" →
  fetch_at (state w)
    (pending (run (activate (handleFetchVideoInfo (state w)) w) evs)
       !! next_id w).
Proof.
  intros Hurl. apply fetch_at_run.
  - rewrite activate_next_id. lia.
  - rewrite activate_handleFetchVideoInfo by done. simpl.
    right. by rewrite lookup_insert_eq.
Qed.

Lemma awaits_download_inv render w tid req :
  download_at render (pending w !! tid) →
  awaits_invoke w tid = Some (download_media req) →
  req = request_of render
  ∧ ∃ unlisten, pending w !! tid = Some (download_invoke render unlisten).
Proof.
  unfold awaits_invoke. intros [Hp|[Hp|[u Hp]]] Ha; rewrite Hp in Ha;
    try discriminate.
  simpl in Ha. split; [congruence | eauto].
Qed.

Lemma awaits_listen_inv render w tid :
  download_at render (pending w !! tid) →
  awaits_listen w tid = true →
  pending w !! tid = Some (download_listen render).
Proof.
  unfold awaits_listen. intros [Hp|[Hp|[u Hp]]] Ha; rewrite Hp in Ha;
    try discriminate; done.
Qed.

Lemma awaits_fetch_inv render w tid u :
  fetch_at render (pending w !! tid) →
  awaits_invoke w tid = Some (get_video_info u) →
  u = url render ∧ pending w !! tid = Some (fetch_invoke render).
Proof.
  unfold awaits_invoke. intros [Hp|Hp] Ha; rewrite Hp in Ha;
    try discriminate.
  simpl in Ha. split; [congruence | done].
Qed.

(** ** Starting a download *)

(** C1. Every call of [handleDownload] whose URL guard passes sets progress
    to 0 and the log sequence to the empty sequence in its first
    synchronous segment, which ends at [await listen]: in every run, the
    trace continues the trace of the caller with exactly the three setters
    and the [listen] call, and everything that happens later (any log
    append, and the [download_media] call this activation issues when its
    subscription is granted) comes after them. *)
Theorem handleDownload_resets_before_command (w : World) (evs : list Event) :
  not_ (url (state w)) = false →
  let tid := next_id w in
  let w1 := activate (handleDownload (state w)) w in
  let reset := [Did tid (setIsDownloading true);
                Did tid (setProgress 0);
                Did tid (setLogs []);
                Called tid (call_listen download_progress)] in
  progress (state w1) = 0%Q
  ∧ logs (state w1) = []
  ∧ awaits_listen w1 tid = true
  ∧ ∃ rest,
      trace (run w1 evs) = trace w ++ reset ++ rest
      ∧ (awaits_listen (run w1 evs) tid = true →
         trace (step (run w1 evs) (ListenSettled tid (Fulfilled ()))) =
         trace w ++ reset ++ rest ++
         [Called tid (call_invoke (download_media (request_of (state w))))]).
Proof.
  intros Hurl%not_false tid w1 reset.
  assert (Hw1 : progress (state w1) = 0%Q ∧ logs (state w1) = []
                ∧ trace w1 = trace w ++ reset
                ∧ pending w1 !! tid = Some (download_listen (state w))).
  { subst w1. rewrite activate_handleDownload by done. simpl.
    by rewrite lookup_insert_eq. }
  destruct Hw1 as (Hp & Hl & Ht & Hpe).
  split; [done|]. split; [done|].
  split; [unfold awaits_listen; by rewrite Hpe|].
  destruct (run_trace w1 evs) as [rest Hrest]. exists rest.
  rewrite Hrest, Ht, <- app_assoc. split; [done|].
  intros Ha.
  apply (awaits_listen_inv (state w)) in Ha;
    [|by apply download_at_activation].
  unfold step. rewrite Ha. simpl. fold w1.
  by rewrite Hrest, Ht, <- !app_assoc.
Qed.

Lemma handleDownload_resets_before_command_witness :
  let w := ready in
  let evs := [Emit download_log (BackendLogMessage.mk "stdout" "line")] in
  let tid := next_id w in
  let w1 := activate (handleDownload (state w)) w in
  let reset := [Did tid (setIsDownloading true);
                Did tid (setProgress 0);
                Did tid (setLogs []);
                Called tid (call_listen download_progress)] in
  progress (state w1) = 0%Q
  ∧ logs (state w1) = []
  ∧ awaits_listen w1 tid = true
  ∧ ∃ rest,
      trace (run w1 evs) = trace w ++ reset ++ rest
      ∧ trace (step (run w1 evs) (ListenSettled tid (Fulfilled ()))) =
        trace w ++ reset ++ rest ++
        [Called tid (call_invoke (download_media (request_of (state w))))].
Proof.
  destruct (handleDownload_resets_before_command ready
              [Emit download_log (BackendLogMessage.mk "stdout" "line")])
    as (Hp & Hl & Ha & rest & Ht & Hcmd); [reflexivity|].
  split; [exact Hp|]. split; [exact Hl|]. split; [exact Ha|].
  exists rest. split; [exact Ht|]. apply Hcmd. reflexivity.
Defined.

(** C2. Whatever happened between the start of a download and the
    settlement of its [download_media] call (any events, any progress
    emissions or none), a fulfilled call leaves progress at exactly 100 and
    the activation finished. *)
Theorem download_fulfilled_progress_100
        (w : World) (evs : list Event) (req : DownloadRequest.t) :
  not_ (url (state w)) = false →
  let tid := next_id w in
  let w2 := run (activate (handleDownload (state w)) w) evs in
  awaits_invoke w2 tid = Some (download_media req) →
  let w3 := step w2 (DownloadSettled tid (Fulfilled ())) in
  progress (state w3) = 100%Q ∧ pending w3 !! tid = None.
Proof.
  intros Hurl%not_false tid w2 Ha w3.
  destruct (awaits_download_inv (state w) w2 tid req) as (_ & u & Hp);
    [by apply download_at_activation | done |].
  subst w3. unfold step. rewrite Hp. simpl.
  split; [done | by rewrite lookup_delete_eq].
Qed.

Lemma download_fulfilled_progress_100_witness :
  let w := ready in
  let evs := [ListenSettled (next_id ready) (Fulfilled ());
              Emit download_progress (ProgressUpdate.mk 42 "downloading")] in
  let tid := next_id w in
  let w2 := run (activate (handleDownload (state w)) w) evs in
  let w3 := step w2 (DownloadSettled tid (Fulfilled ())) in
  progress (state w2) = 42%Q
  ∧ progress (state w3) = 100%Q ∧ pending w3 !! tid = None.
Proof.
  split; [reflexivity|].
  apply (download_fulfilled_progress_100 ready _ (request_of (state ready)));
    reflexivity.
Defined.

(** C6. With an empty URL both handlers show the error notification and
    return: nothing is suspended (no command was issued), no listener is
    added, and no state cell changes. *)
Theorem empty_url_rejected_before_command (w : World) :
  not_ (url (state w)) = true →
  let rejected :=
    mkWorld (state w) (listeners w) (pending w) (S (next_id w))
            (trace w ++ [Did (next_id w)
                             (toast_error "Please enter a YouTube URL")]) in
  activate (handleFetchVideoInfo (state w)) w = rejected
  ∧ activate (handleDownload (state w)) w = rejected.
Proof.
  intros Hurl. unfold activate.
  rewrite handleFetchVideoInfo_unfold, handleDownload_unfold, Hurl. done.
Qed.

Lemma empty_url_rejected_before_command_witness :
  let w := init in
  let rejected :=
    mkWorld (state w) (listeners w) (pending w) (S (next_id w))
            (trace w ++ [Did (next_id w)
                             (toast_error "Please enter a YouTube URL")]) in
  activate (handleFetchVideoInfo (state w)) w = rejected
  ∧ activate (handleDownload (state w)) w = rejected.
Proof. apply (empty_url_rejected_before_command init). reflexivity. Defined.

(** C7. A download started with format ["audio"], quality ["140"] and no
    directory chosen issues [download_media] with exactly the record
    [{url, format: "audio", quality: "140", downloadPath: null}]: that is
    the call made when the progress subscription is granted, whatever the
    user changed in the meantime, and from then on the activation is
    either waiting on that request or finished. *)
Theorem download_request_audio_140 (w : World) (evs : list Event) :
  not_ (url (state w)) = false →
  format (state w) = "audio" →
  quality (state w) = "140" →
  downloadPath (state w) = None →
  let tid := next_id w in
  let w2 := run (activate (handleDownload (state w)) w) evs in
  let request := DownloadRequest.mk (url (state w)) "audio" "140" None in
  awaits_listen w2 tid = true →
  let w3 := step w2 (ListenSettled tid (Fulfilled ())) in
  trace w3 = trace w2 ++ [Called tid (call_invoke (download_media request))]
  ∧ awaits_invoke w3 tid = Some (download_media request)
  ∧ ∀ evs', awaits_invoke (run w3 evs') tid = Some (download_media request)
            ∨ awaits_invoke (run w3 evs') tid = None.
Proof.
  intros Hurl%not_false Hf Hq Hd tid w2 request Ha w3.
  assert (request = request_of (state w)) as ->.
  { unfold request_of. by rewrite Hf, Hq, Hd. }
  pose proof (download_at_activation w evs Hurl) as Hat.
  apply (awaits_listen_inv _ _ _ Hat) in Ha.
  split_and!.
  - subst w3 w2 tid. unfold step. rewrite Ha. done.
  - subst w3 w2 tid. unfold step. rewrite Ha.
    unfold awaits_invoke. simpl. by rewrite lookup_insert_eq.
  - intros evs'.
    pose proof (download_at_activation w
                  (evs ++ ListenSettled tid (Fulfilled ()) :: evs') Hurl)
      as Hat'.
    rewrite run_app in Hat'.
    change (run ?a (?e :: ?l)) with (run (step a e) l) in Hat'.
    subst w3 w2 tid. unfold awaits_invoke.
    destruct Hat' as [-> |[-> |[u ->]]]; auto.
Qed.

Lemma download_request_audio_140_witness :
  let w := ready_audio_140 in
  let evs := [ChangeQuality "137"] in
  let tid := next_id w in
  let w2 := run (activate (handleDownload (state w)) w) evs in
  let request :=
    DownloadRequest.mk "https://www.youtube.com/watch?v=abc123"
                       "audio" "140" None in
  let w3 := step w2 (ListenSettled tid (Fulfilled ())) in
  quality (state w2) = "137"
  ∧ trace w3 = trace w2 ++ [Called tid (call_invoke (download_media request))]
  ∧ awaits_invoke w3 tid = Some (download_media request)
  ∧ ∀ evs', awaits_invoke (run w3 evs') tid = Some (download_media request)
            ∨ awaits_invoke (run w3 evs') tid = None.
Proof.
  split; [reflexivity|].
  apply (download_request_audio_140 ready_audio_140 [ChangeQuality "137"]);
    reflexivity.
Defined.

(** C9. When [get_video_info] rejects, the activation of
    [handleFetchVideoInfo] has changed nothing but the [isFetchingInfo]
    flag (raised at the start, lowered at the end) and has reported the
    error: [availableQualities] is what it was before the rejection. *)
Theorem fetch_rejected_keeps_qualities
        (w : World) (evs : list Event) (u error : string) :
  not_ (url (state w)) = false →
  let tid := next_id w in
  let w1 := activate (handleFetchVideoInfo (state w)) w in
  let w2 := run w1 evs in
  awaits_invoke w2 tid = Some (get_video_info u) →
  let w3 := step w2 (InfoSettled tid (Rejected error)) in
  state w1 = apply_setter (setIsFetchingInfo true) (state w)
  ∧ state w3 = apply_setter (setIsFetchingInfo false) (state w2)
  ∧ availableQualities (state w3) = availableQualities (state w2)
  ∧ trace w3 = trace w2 ++
      [Did tid (console_error error);
       Did tid (toast_error ("Failed to fetch video info: " +:+ error));
       Did tid (setIsFetchingInfo false)]
  ∧ listeners w3 = listeners w2
  ∧ pending w3 = delete tid (pending w2).
Proof.
  intros Hurl%not_false tid w1 w2 Ha w3.
  destruct (awaits_fetch_inv (state w) w2 tid u) as (_ & Hp);
    [by apply fetch_at_activation | done |].
  split; [subst w1; by rewrite activate_handleFetchVideoInfo|].
  subst w3. unfold step. rewrite Hp. wsimpl.
  split_and!; try done. by rewrite <- !app_assoc.
Qed.

Lemma fetch_rejected_keeps_qualities_witness :
  let w := ready_audio_140 in
  let evs := [Emit download_log (BackendLogMessage.mk "stderr" "x")] in
  let error := "network unreachable" in
  let tid := next_id w in
  let w1 := activate (handleFetchVideoInfo (state w)) w in
  let w2 := run w1 evs in
  let w3 := step w2 (InfoSettled tid (Rejected error)) in
  state w1 = apply_setter (setIsFetchingInfo true) (state w)
  ∧ state w3 = apply_setter (setIsFetchingInfo false) (state w2)
  ∧ availableQualities (state w3) = availableQualities (state w2)
  ∧ trace w3 = trace w2 ++
      [Did tid (console_error error);
       Did tid (toast_error ("Failed to fetch video info: " +:+ error));
       Did tid (setIsFetchingInfo false)]
  ∧ listeners w3 = listeners w2
  ∧ pending w3 = delete tid (pending w2).
Proof.
  apply (fetch_rejected_keeps_qualities ready_audio_140 _
           "https://www.youtube.com/watch?v=abc123"); reflexivity.
Defined.

(** ** The reachable worlds *)

Lemma deliver_known c payload ls w :
  (∀ u l, (u, l) ∈ ls → l = log_listener ∨ l = progress_listener) →
  fold_left (deliver1 c payload) ls w =
  Nat.iter (length (heard c ls)) (activate (callback c payload)) w.
Proof.
  revert w; induction ls as [|[u l] ls IH]; intros w Hk; [done|].
  simpl. rewrite IH by (intros; eapply Hk; by right).
  unfold heard. rewrite filter_cons. simpl.
  destruct (Hk u l) as [->| ->]; [by left| |]; destruct c; simpl;
    try done; apply Nat.iter_swap.
Qed.

Lemma step_Step w ev : Inv w → Step w ev (step w ev).
Proof.
  intros HI.
  assert (Hnoop : ∀ e, settles e = settles e → (∀ c p, e ≠ Emit c p) →
                       Step w e w).
  { intros e _ He. apply Step_noop. intros c p ->. by destruct (He c p). }
  destruct ev; unfold step.
  - apply (Step_simple w _ [setUrl v]). constructor.
  - case_bool_decide; [|by apply Hnoop].
    apply (Step_simple w _ [setFormat v]). by constructor.
  - case_bool_decide; [|by apply Hnoop].
    apply (Step_simple w _ [setQuality v]). by constructor.
  - apply (Step_simple w _ [setIsLogViewerOpen true]). constructor.
  - apply (Step_simple w _ [setIsLogViewerOpen v]). constructor.
  - destruct selected as [path|]; simpl.
    + destruct (not_ path).
      * apply (Step_simple w _ []). constructor.
      * apply (Step_simple w _ [setDownloadPath (Some path)]). constructor.
    + apply (Step_simple w _ []). constructor.
  - destruct (fetchButton_disabled (state w)) eqn:Hd; [by apply Hnoop|].
    rewrite handleFetchVideoInfo_unfold.
    destruct (not_ (url (state w))) eqn:Hu.
    + apply (Step_simple w _ [toast_error "Please enter a YouTube URL"]).
      by constructor.
    + by apply Step_fetch_start.
  - destruct (downloadButton_disabled (state w)) eqn:Hd; [by apply Hnoop|].
    rewrite handleDownload_unfold.
    destruct (not_ (url (state w))) eqn:Hu.
    + apply (Step_simple w _ [toast_error "Please enter a YouTube URL"]).
      by constructor.
    + by apply Step_download_start.
  - destruct (pending w !! tid) as [p|] eqn:Hp; [|by apply Hnoop].
    destruct (inv_pending w HI tid p Hp) as [_ Hk].
    destruct Hk; simpl; try by apply Hnoop.
    + destruct r; by apply (Step_mount_settled w tid).
    + destruct r.
      * by apply Step_listen_granted.
      * by apply (Step_listen_rejected w tid render).
  - destruct (pending w !! tid) as [p|] eqn:Hp; [|by apply Hnoop].
    destruct (inv_pending w HI tid p Hp) as [_ Hk].
    destruct Hk; simpl; try by apply Hnoop.
    destruct r.
    + by apply (Step_fetch_fulfilled w tid render).
    + by apply (Step_fetch_rejected w tid render).
  - destruct (pending w !! tid) as [p|] eqn:Hp; [|by apply Hnoop].
    destruct (inv_pending w HI tid p Hp) as [_ Hk].
    destruct Hk; simpl; try by apply Hnoop.
    destruct r.
    + by apply (Step_download_fulfilled w tid render).
    + by apply (Step_download_rejected w tid render).
  - unfold deliver. rewrite deliver_known
      by (intros u l Hl; by apply (inv_listeners w HI u l)).
    assert (Hc : length (heard c (listeners w)) ≤ 1).
    { destruct c; [apply inv_log_count | apply inv_progress_count]; done. }
    destruct (heard c (listeners w)) as [|l0 [|l1 ls]] eqn:Hh; simpl in *;
      [| |lia].
    + apply Step_noop. intros c' p' He. by simplify_eq.
    + destruct c; simpl.
      * apply (Step_simple w _ [setLogs_fn _]). constructor. by rewrite Hh.
      * apply (Step_simple w _ [setProgress _]). constructor. by rewrite Hh.
Qed.

Lemma download_invoke_inj r1 u1 r2 u2 :
  download_invoke r1 u1 = download_invoke r2 u2 → u1 = u2.
Proof. intros H. apply (f_equal unlisten_of) in H. by simplify_eq. Qed.

Lemma releases_app u tr1 tr2 :
  releases u (tr1 ++ tr2) = releases u tr1 + releases u tr2.
Proof.
  induction tr1 as [|[? []| |] tr1 IH]; simpl; try done.
  rewrite IH. lia.
Qed.

Lemma heard_app c ls1 ls2 : heard c (ls1 ++ ls2) = heard c ls1 ++ heard c ls2.
Proof. apply filter_app. Qed.

Lemma heard_nil_not_in c ls u l :
  heard c ls = [] → (u, l) ∈ ls → channel l ≠ c.
Proof.
  intros Hh Hin Hc.
  assert ((u, l) ∈ heard c ls) as Hin'
    by (apply list_elem_of_filter; by split).
  rewrite Hh in Hin'. by apply not_elem_of_nil in Hin'.
Qed.

Lemma Inv_init : Inv init.
Proof.
  constructor; unfold init, boot; wsimpl.
  - intros tid p Hp. apply lookup_insert_Some in Hp as [[<- <-]|[_ Hp]].
    + split; [lia | constructor].
    + by rewrite lookup_empty in Hp.
  - intros tid Hp. apply lookup_insert_Some in Hp as [[<- _]|[_ Hp]]; [done|].
    by rewrite lookup_empty in Hp.
  - intros tid p Hp Hd. apply lookup_insert_Some in Hp as [[<- <-]|[_ Hp]].
    + done.
    + by rewrite lookup_empty in Hp.
  - intros t1 t2 p1 p2 Hp Hd. apply lookup_insert_Some in Hp as [[<- <-]|[_ Hp]].
    + done.
    + by rewrite lookup_empty in Hp.
  - intros tid render Hp. done.
  - intros tid render u Hp. apply lookup_insert_Some in Hp as [[<- ?]|[_ Hp]].
    + done.
    + by rewrite lookup_empty in Hp.
  - done.
  - intros u l Hl. by apply not_elem_of_nil in Hl.
  - constructor.
  - lia.
  - lia.
  - intros u Hu. lia.
Qed.

(** *** Preservation of the invariant *)

(** Steps that leave the listeners, the download flag and the download
    activations alone. *)
Lemma Inv_other w w' :
  Inv w →
  listeners w' = listeners w →
  next_id w ≤ next_id w' →
  isDownloading (state w') = isDownloading (state w) →
  (∀ u, releases u (trace w') = releases u (trace w)) →
  (∀ tid p, pending w' !! tid = Some p →
            pending w !! tid = Some p
            ∨ (tid < next_id w' ∧ ∃ r, p = fetch_invoke r)) →
  (∀ tid render u, pending w !! tid = Some (download_invoke render u) →
                   pending w' !! tid = Some (download_invoke render u)) →
  Inv w'.
Proof.
  intros HI Hl Hn Hd Hr Hnew Hkeep.
  constructor; rewrite ?Hl, ?Hd.
  - intros tid p [Hp|[? [r ->]]]%Hnew; [|split; [done|constructor]].
    destruct (inv_pending w HI tid p Hp). split; [lia|done].
  - intros tid [Hp|[? [r ?]]]%Hnew; [|done]. by apply (inv_mount w HI).
  - intros tid p [Hp|[? [r ->]]]%Hnew Hdl; [|done].
    by apply (inv_downloading w HI tid p).
  - intros t1 t2 p1 p2 [H1|[? [r1 ->]]]%Hnew Hd1 [H2|[? [r2 ->]]]%Hnew Hd2;
      try done. by apply (inv_single w HI t1 t2 p1 p2).
  - intros tid render [Hp|[? [r ?]]]%Hnew; [|done].
    by apply (inv_listen w HI tid render).
  - intros tid render u [Hp|[? [r Hx]]]%Hnew.
    + by apply (inv_invoke w HI tid render).
    + by apply (f_equal is_download) in Hx.
  - intros Hh. destruct (inv_owner w HI Hh) as (tid & render & u & Hp).
    exists tid, render, u. by apply Hkeep.
  - intros u l Hin. destruct (inv_listeners w HI u l Hin). split; [lia|done].
  - apply (inv_nodup w HI).
  - apply (inv_log_count w HI).
  - apply (inv_progress_count w HI).
  - intros u Hu. rewrite Hr in Hu.
    destruct (inv_released w HI u Hu). split; [lia|done].
Qed.

Lemma simple_frame w ev acts :
  simple w ev acts →
  let w' := acts_at (next_id w) acts (fresh w) in
  listeners w' = listeners w ∧ pending w' = pending w
  ∧ next_id w' = S (next_id w)
  ∧ isDownloading (state w') = isDownloading (state w)
  ∧ ∀ u, releases u (trace w') = releases u (trace w).
Proof.
  destruct 1; simpl; split_and!; try done;
    intros u; rewrite ?releases_app; simpl; lia.
Qed.

Lemma Inv_simple w ev acts :
  Inv w → simple w ev acts → Inv (acts_at (next_id w) acts (fresh w)).
Proof.
  intros HI Hs. destruct (simple_frame w ev acts Hs) as (Hl & Hp & Hn & Hd & Hr).
  apply (Inv_other w); try done; try lia.
  - intros tid p. rewrite Hp. by left.
  - intros tid render u. by rewrite Hp.
Qed.

Lemma Inv_fetch_start w :
  Inv w →
  Inv (suspend (next_id w) (fetch_invoke (state w))
         (call_invoke (get_video_info (url (state w))))
         (acts_at (next_id w) [setIsFetchingInfo true] (fresh w))).
Proof.
  intros HI. apply (Inv_other w); wsimpl; try done; try lia.
  - intros u. rewrite !releases_app. simpl. lia.
  - intros tid p [[<- <-]|[_ Hp]]%lookup_insert_Some; [right|by left].
    split; [lia | by eexists].
  - intros tid render u Hp. rewrite lookup_insert_ne; [done|].
    destruct (inv_pending w HI tid _ Hp). lia.
Qed.

Lemma Inv_drop w w' tid p :
  Inv w →
  pending w !! tid = Some p →
  (∀ render u, p ≠ download_invoke render u) →
  listeners w' = listeners w →
  next_id w' = next_id w →
  isDownloading (state w') = isDownloading (state w) →
  pending w' = delete tid (pending w) →
  (∀ u, releases u (trace w') = releases u (trace w)) →
  Inv w'.
Proof.
  intros HI Hp Hnd Hl Hn Hd Hpe Hr.
  apply (Inv_other w); try done; try lia; rewrite Hpe.
  - intros t q [_ ?]%lookup_delete_Some. by left.
  - intros t render u Ht. rewrite lookup_delete_ne; [done|].
    intros <-. rewrite Hp in Ht. simplify_eq. by destruct (Hnd render u).
Qed.

Lemma heard_filter_nil c (P : UnlistenFn * Listener → Prop)
      `{∀ x, Decision (P x)} ls :
  heard c ls = [] → heard c (filter P ls) = [].
Proof.
  unfold heard. induction ls as [|l ls IH]; [done|].
  rewrite !filter_cons. destruct (decide (channel l.2 = c)); [done|].
  intros Hh. destruct (decide (P l)); [|by apply IH].
  rewrite filter_cons. destruct (decide (channel l.2 = c)); [done|by apply IH].
Qed.

Lemma heard_filter_length c (P : UnlistenFn * Listener → Prop)
      `{∀ x, Decision (P x)} ls :
  length (heard c (filter P ls)) ≤ length (heard c ls).
Proof.
  unfold heard. induction ls as [|l ls IH]; [done|].
  rewrite !filter_cons.
  destruct (decide (P l)); destruct (decide (channel l.2 = c)); simpl;
    rewrite ?filter_cons; try destruct (decide (channel l.2 = c)); simpl;
    try done; lia.
Qed.

(** Releasing the only progress subscription leaves none. *)
Lemma heard_progress_released ls u :
  length (heard download_progress ls) ≤ 1 →
  (u, progress_listener) ∈ ls →
  heard download_progress (filter (λ l, l.1 ≠ u) ls) = [].
Proof.
  unfold heard. induction ls as [|l ls IH]; [done|].
  rewrite !filter_cons. intros Hlen Hin.
  destruct (decide (channel l.2 = download_progress)) as [Hc|Hc]; simpl in *.
  - assert (filter (λ l, channel l.2 = download_progress) ls = []) as Hnil
      by (apply length_zero_iff_nil; lia).
    apply elem_of_cons in Hin as [<-|Hin].
    + simpl. destruct (decide (u ≠ u)); [done|].
      by apply (heard_filter_nil download_progress).
    + exfalso. eapply (heard_nil_not_in download_progress ls); eauto.
  - apply elem_of_cons in Hin as [<-|Hin]; [done|].
    destruct (decide (l.1 ≠ u)); [|by apply IH].
    rewrite filter_cons. destruct (decide _); [done|by apply IH].
Qed.

Lemma keys_filter_sub (P : UnlistenFn * Listener → Prop)
      `{∀ x, Decision (P x)} ls u :
  u ∈ (filter P ls).*1 → u ∈ ls.*1.
Proof.
  intros [[u' l] [-> [_ Hin]%list_elem_of_filter]]%list_elem_of_fmap.
  apply list_elem_of_fmap. by exists (u', l).
Qed.

Lemma keys_filter_nodup (P : UnlistenFn * Listener → Prop)
      `{∀ x, Decision (P x)} ls :
  NoDup ls.*1 → NoDup (filter P ls).*1.
Proof.
  induction ls as [|l ls IH]; [done|].
  rewrite fmap_cons, filter_cons. intros [Hni Hnd]%NoDup_cons.
  destruct (decide (P l)); [|by apply IH].
  rewrite fmap_cons. apply NoDup_cons. split; [|by apply IH].
  intros Hin. by apply Hni, (keys_filter_sub P).
Qed.

Lemma Inv_mount_granted w tid :
  Inv w →
  pending w !! tid = Some useEffect_mount →
  Inv (register download_log onDownloadLog (wake tid w)).
Proof.
  intros HI Hp. destruct (inv_mount w HI tid Hp) as [-> Hlog].
  constructor; wsimpl; rewrite ?heard_app, ?Hlog; simpl.
  - intros t p [_ Ht]%lookup_delete_Some.
    destruct (inv_pending w HI t p Ht). split; [lia|done].
  - intros t [Hne Ht]%lookup_delete_Some.
    by destruct (inv_mount w HI t Ht) as [-> _].
  - intros t p [_ Ht]%lookup_delete_Some. by apply (inv_downloading w HI t).
  - intros t1 t2 p1 p2 [_ H1]%lookup_delete_Some ? [_ H2]%lookup_delete_Some ?.
    by apply (inv_single w HI t1 t2 p1 p2).
  - intros t render [_ Ht]%lookup_delete_Some. rewrite app_nil_r.
    by apply (inv_listen w HI t render).
  - intros t render u [_ Ht]%lookup_delete_Some. apply elem_of_app. left.
    by apply (inv_invoke w HI t render).
  - rewrite app_nil_r. intros Hh.
    destruct (inv_owner w HI Hh) as (t & render & u & Ht).
    exists t, render, u. rewrite lookup_delete_ne; [done|].
    intros <-. rewrite Hp in Ht. by simplify_eq.
  - intros u l [Hin|Hin]%elem_of_app.
    + destruct (inv_listeners w HI u l Hin). split; [lia|done].
    + apply list_elem_of_singleton in Hin. simplify_eq. split; [lia|by left].
  - rewrite fmap_app. apply NoDup_app. split; [apply (inv_nodup w HI)|].
    split; [|apply NoDup_singleton].
    intros u [[u' l] [-> Hin]]%list_elem_of_fmap Hu. simpl in *.
    apply list_elem_of_singleton in Hu.
    destruct (inv_listeners w HI u' l Hin). lia.
  - done.
  - rewrite app_nil_r. apply (inv_progress_count w HI).
  - intros u Hu. destruct (inv_released w HI u Hu) as [Hlt Hni].
    split; [lia|]. rewrite fmap_app. intros [?|Hin]%elem_of_app; [done|].
    simpl in Hin. apply list_elem_of_singleton in Hin. lia.
Qed.

(** While the download button is enabled no download is in flight. *)
Lemma idle_no_download w :
  Inv w → isDownloading (state w) = false →
  (∀ tid p, pending w !! tid = Some p → is_download p = false)
  ∧ heard download_progress (listeners w) = [].
Proof.
  intros HI Hd. split.
  - intros tid p Hp. destruct (is_download p) eqn:E; [|done].
    rewrite (inv_downloading w HI tid p Hp E) in Hd. done.
  - destruct (heard download_progress (listeners w)) eqn:E; [done|].
    destruct (inv_owner w HI) as (tid & render & u & Hp); [by rewrite E|].
    rewrite (inv_downloading w HI tid _ Hp) in Hd; done.
Qed.

Lemma Inv_download_start w :
  Inv w →
  isDownloading (state w) = false →
  Inv (suspend (next_id w) (download_listen (state w))
         (call_listen download_progress)
         (acts_at (next_id w)
            [setIsDownloading true; setProgress 0; setLogs []] (fresh w))).
Proof.
  intros HI Hd. destruct (idle_no_download w HI Hd) as [Hidle Hnone].
  constructor; wsimpl.
  - intros t p [[<- <-]|[_ Ht]]%lookup_insert_Some.
    + split; [lia|constructor].
    + destruct (inv_pending w HI t p Ht). split; [lia|done].
  - intros t [[<- ?]|[_ Ht]]%lookup_insert_Some; [done|].
    by apply (inv_mount w HI).
  - done.
  - intros t1 t2 p1 p2 [[<- <-]|[_ H1]]%lookup_insert_Some Hd1
                       [[<- <-]|[_ H2]]%lookup_insert_Some Hd2; try done.
    + by rewrite (Hidle t2 p2 H2) in Hd2.
    + by rewrite (Hidle t1 p1 H1) in Hd1.
    + by rewrite (Hidle t1 p1 H1) in Hd1.
  - done.
  - intros t render u [[<- ?]|[_ Ht]]%lookup_insert_Some; [done|].
    by apply (inv_invoke w HI t render).
  - done.
  - intros u l Hin. destruct (inv_listeners w HI u l Hin). split; [lia|done].
  - apply (inv_nodup w HI).
  - apply (inv_log_count w HI).
  - apply (inv_progress_count w HI).
  - intros u. rewrite !releases_app. simpl. rewrite !Nat.add_0_r. intros Hu.
    destruct (inv_released w HI u Hu). split; [lia|done].
Qed.

Lemma Inv_listen_granted w tid render :
  Inv w →
  pending w !! tid = Some (download_listen render) →
  Inv (suspend tid (download_invoke render (next_id w))
         (call_invoke (download_media (request_of render)))
         (register download_progress onDownloadProgress (wake tid w))).
Proof.
  intros HI Hp. pose proof (inv_listen w HI tid render Hp) as Hnone.
  assert (Hother : ∀ t p, t ≠ tid → pending w !! t = Some p →
                          is_download p = false).
  { intros t p Hne Ht. destruct (is_download p) eqn:E; [|done].
    destruct Hne. by apply (inv_single w HI t tid p (download_listen render)). }
  constructor; wsimpl; rewrite ?heard_app, ?Hnone; simpl.
  - intros t p [[<- <-]|[_ [_ Ht]%lookup_delete_Some]]%lookup_insert_Some.
    + destruct (inv_pending w HI tid _ Hp). split; [lia|constructor].
    + destruct (inv_pending w HI t p Ht). split; [lia|done].
  - intros t [[<- ?]|[_ [_ Ht]%lookup_delete_Some]]%lookup_insert_Some;
      [done|]. rewrite app_nil_r. by apply (inv_mount w HI).
  - intros t p [[<- <-]|[_ [_ Ht]%lookup_delete_Some]]%lookup_insert_Some Hd.
    + by apply (inv_downloading w HI tid _ Hp).
    + by apply (inv_downloading w HI t p).
  - intros t1 t2 p1 p2
           [[<- <-]|[? [_ H1]%lookup_delete_Some]]%lookup_insert_Some Hd1
           [[<- <-]|[? [_ H2]%lookup_delete_Some]]%lookup_insert_Some Hd2;
      try done.
    + by rewrite (Hother t2 p2) in Hd2.
    + by rewrite (Hother t1 p1) in Hd1.
    + by rewrite (Hother t1 p1) in Hd1.
  - intros t r [[<- ?]|[? [_ Ht]%lookup_delete_Some]]%lookup_insert_Some;
      [done|]. pose proof (Hother t _ ltac:(done) Ht). done.
  - intros t r u [[<- Hx]|[? [_ Ht]%lookup_delete_Some]]%lookup_insert_Some.
    + apply download_invoke_inj in Hx as <-. apply elem_of_app. right.
      by apply list_elem_of_singleton.
    + pose proof (Hother t _ ltac:(done) Ht). done.
  - intros _. exists tid, render, (next_id w). by rewrite lookup_insert_eq.
  - intros u l [Hin|Hin]%elem_of_app.
    + destruct (inv_listeners w HI u l Hin). split; [lia|done].
    + apply list_elem_of_singleton in Hin. simplify_eq. split; [lia|by right].
  - rewrite fmap_app. apply NoDup_app. split; [apply (inv_nodup w HI)|].
    split; [|apply NoDup_singleton].
    intros u [[u' l] [-> Hin]]%list_elem_of_fmap Hu. simpl in *.
    apply list_elem_of_singleton in Hu.
    destruct (inv_listeners w HI u' l Hin). lia.
  - rewrite app_nil_r. apply (inv_log_count w HI).
  - done.
  - intros u. rewrite releases_app. simpl. rewrite Nat.add_0_r. intros Hu.
    destruct (inv_released w HI u Hu) as [Hlt Hni].
    split; [lia|]. rewrite fmap_app. intros [?|Hin]%elem_of_app; [done|].
    simpl in Hin. apply list_elem_of_singleton in Hin. lia.
Qed.

Lemma Inv_download_released w w' tid render u :
  Inv w →
  pending w !! tid = Some (download_invoke render u) →
  listeners w' = filter (λ l, l.1 ≠ u) (listeners w) →
  pending w' = delete tid (pending w) →
  next_id w' = next_id w →
  (∀ u', releases u' (trace w') =
         releases u' (trace w) + (if decide (u = u') then 1 else 0)) →
  Inv w'.
Proof.
  intros HI Hp Hl Hpe Hn Hr.
  pose proof (inv_invoke w HI tid render u Hp) as Hin.
  assert (Hnone : ∀ t p, pending w' !! t = Some p → is_download p = false).
  { intros t p. rewrite Hpe. intros [Hne Ht]%lookup_delete_Some.
    destruct (is_download p) eqn:E; [|done]. destruct Hne.
    by apply (inv_single w HI tid t (download_invoke render u) p). }
  assert (Hold : ∀ t p, pending w' !! t = Some p → pending w !! t = Some p).
  { intros t p. rewrite Hpe. by intros [_ ?]%lookup_delete_Some. }
  constructor; rewrite ?Hl, ?Hn.
  - intros t p Ht%Hold. by apply (inv_pending w HI).
  - intros t Ht%Hold. destruct (inv_mount w HI t Ht) as [-> Hlog].
    split; [done|]. by apply heard_filter_nil.
  - intros t p Ht Hd. by rewrite (Hnone t p Ht) in Hd.
  - intros t1 t2 p1 p2 H1 Hd1. by rewrite (Hnone t1 p1 H1) in Hd1.
  - intros t r Ht. by pose proof (Hnone t _ Ht).
  - intros t r u' Ht. by pose proof (Hnone t _ Ht).
  - intros Hh. destruct Hh.
    apply heard_progress_released; [apply (inv_progress_count w HI)|done].
  - intros u' l [_ Hl']%list_elem_of_filter. by apply (inv_listeners w HI).
  - apply keys_filter_nodup, (inv_nodup w HI).
  - etrans; [apply heard_filter_length|apply (inv_log_count w HI)].
  - etrans; [apply heard_filter_length|apply (inv_progress_count w HI)].
  - intros u'. rewrite Hr. destruct (decide (u = u')) as [<-|Hne].
    + intros _. split; [by apply (inv_listeners w HI u _ Hin)|].
      intros [[u' l] [Hu [Hk _]%list_elem_of_filter]]%list_elem_of_fmap.
      simpl in *. by subst.
    + rewrite Nat.add_0_r. intros Hu.
      destruct (inv_released w HI u' Hu) as [? Hni]. split; [done|].
      intros Hk. by apply Hni, (keys_filter_sub (λ l, l.1 ≠ u)).
Qed.

Lemma Inv_Step w ev w' : Inv w → Step w ev w' → Inv w'.
Proof.
  intros HI Hs. destruct Hs.
  - done.
  - by apply (Inv_simple w ev).
  - by apply Inv_fetch_start.
  - by apply Inv_download_start.
  - destruct r.
    + by apply Inv_mount_granted.
    + by apply (Inv_drop w _ tid useEffect_mount).
  - by apply Inv_listen_granted.
  - apply (Inv_drop w _ tid (download_listen render)); try done.
    intros u. wsimpl. rewrite releases_app. simpl. lia.
  - apply (Inv_drop w _ tid (fetch_invoke render)); try done.
    intros u. wsimpl. rewrite !releases_app. simpl. lia.
  - apply (Inv_drop w _ tid (fetch_invoke render)); try done.
    intros u. wsimpl. rewrite !releases_app. simpl. lia.
  - apply (Inv_download_released w _ tid render u); try done.
    intros u'. wsimpl. rewrite !releases_app. simpl. lia.
  - apply (Inv_download_released w _ tid render u); try done.
    intros u'. wsimpl. rewrite !releases_app. simpl. lia.
Qed.

Lemma Inv_step w ev : Inv w → Inv (step w ev).
Proof. intros HI. by apply (Inv_Step w ev), step_Step. Qed.

Lemma Inv_run w evs : Inv w → Inv (run w evs).
Proof.
  revert w; induction evs as [|ev evs IH]; intros w HI; [done|].
  by apply (IH (step w ev)), Inv_step.
Qed.

Lemma reachable_Inv w : reachable w → Inv w.
Proof. intros [evs ->]. apply Inv_run, Inv_init. Qed.

(** ** The log sequence *)

Lemma keys_functional (ls : list (UnlistenFn * Listener)) u l1 l2 :
  NoDup ls.*1 → (u, l1) ∈ ls → (u, l2) ∈ ls → l1 = l2.
Proof.
  induction ls as [|[u' l'] ls IH]; [by intros _ ?%not_elem_of_nil|].
  rewrite fmap_cons. intros [Hni Hnd]%NoDup_cons.
  intros [?|H1]%elem_of_cons [?|H2]%elem_of_cons; simplify_eq; try done.
  - destruct Hni. apply list_elem_of_fmap. by eexists (_, l2).
  - destruct Hni. apply list_elem_of_fmap. by eexists (_, l1).
  - by apply IH.
Qed.

Lemma heard_log_kept ls u :
  NoDup ls.*1 → (u, progress_listener) ∈ ls →
  heard download_log (filter (λ l, l.1 ≠ u) ls) = heard download_log ls.
Proof.
  intros Hnd Hin.
  assert (Hk : ∀ l, l ∈ ls → channel l.2 = download_log → l.1 ≠ u).
  { intros [u' l] Hl Hc Hu. simpl in *. subst u'.
    rewrite (keys_functional ls u l progress_listener) in Hc; done. }
  clear Hnd Hin. unfold heard. induction ls as [|l ls IH]; [done|].
  rewrite !filter_cons.
  destruct (decide (channel l.2 = download_log)) as [Hc|Hc].
  - destruct (decide (l.1 ≠ u)) as [?|Hn].
    + rewrite filter_cons, decide_True by done. f_equal.
      apply IH. intros; apply Hk; [by right|done].
    + destruct Hn. apply Hk; [by left|done].
  - destruct (decide (l.1 ≠ u)).
    + rewrite filter_cons, decide_False by done.
      apply IH. intros; apply Hk; [by right|done].
    + apply IH. intros; apply Hk; [by right|done].
Qed.

(** What one step does to the log sequence while the subscription is
    active. *)
Lemma Step_logs w ev w' :
  Inv w → Step w ev w' → log_subscribed w = true →
  log_subscribed w' = true
  ∧ (logs (state w') = logs (state w) ++ log_emissions [ev]
     ∨ is_download_click ev = true).
Proof.
  intros HI Hs Hsub. unfold log_subscribed in *.
  destruct Hs; wsimpl; rewrite ?heard_app, ?app_nil_r.
  - split; [done|]. left. destruct ev; simpl; rewrite ?app_nil_r; try done.
    destruct c; simpl; rewrite ?app_nil_r; try done.
    by rewrite (H download_log payload) in Hsub.
  - destruct H; simpl; rewrite ?app_nil_r; auto.
  - auto.
  - auto.
  - destruct (inv_mount w HI tid H) as [_ Hn]. by rewrite Hn in Hsub.
  - split; [|by left]. by destruct (heard download_log (listeners w)).
  - auto.
  - auto.
  - auto.
  - split; [|by left].
    rewrite heard_log_kept; [done|apply (inv_nodup w HI)|].
    by apply (inv_invoke w HI tid render).
  - split; [|by left].
    rewrite heard_log_kept; [done|apply (inv_nodup w HI)|].
    by apply (inv_invoke w HI tid render).
Qed.

Lemma log_emissions_cons ev evs :
  log_emissions (ev :: evs) = log_emissions [ev] ++ log_emissions evs.
Proof. destruct ev; simpl; try done. by destruct c. Qed.

Lemma run_logs w evs :
  Inv w → log_subscribed w = true →
  forallb (λ ev, negb (is_download_click ev)) evs = true →
  logs (state (run w evs)) = logs (state w) ++ log_emissions evs.
Proof.
  revert w; induction evs as [|ev evs IH]; intros w HI Hsub Hev.
  - simpl. by rewrite app_nil_r.
  - simpl in Hev. apply andb_true_iff in Hev as [Hev1 Hev2].
    destruct (Step_logs w ev (step w ev) HI (step_Step w ev HI) Hsub)
      as [Hsub' [Hl|Hc]].
    + change (run w (ev :: evs)) with (run (step w ev) evs).
      rewrite IH; [|by apply Inv_step|done|done].
      rewrite Hl, (log_emissions_cons ev evs). by rewrite app_assoc.
    + by rewrite Hc in Hev1.
Qed.

(** C5, as the code has it. While the mount effect's subscription is
    active, every [download-log] emission appends exactly one log message
    to the end of the log sequence, and nothing else touches the sequence
    except the start of a download, which empties it: over any events
    [evs] without a click on the download button the sequence grows by
    exactly the emissions of [evs], in order, and after a download has
    started the sequence is exactly the emissions received since. *)
Theorem logs_are_emissions_since_clear (evs0 evs : list Event) :
  let w := run init evs0 in
  log_subscribed w = true →
  forallb (λ ev, negb (is_download_click ev)) evs = true →
  logs (state (run w evs)) = logs (state w) ++ log_emissions evs
  ∧ (downloadButton_disabled (state w) = false →
     not_ (url (state w)) = false →
     logs (state (run (step w ClickDownload) evs)) = log_emissions evs).
Proof.
  intros w Hsub Hev.
  assert (HI : Inv w) by (apply reachable_Inv; by exists evs0).
  split; [by apply run_logs|].
  intros Hd Hu.
  destruct (Step_logs w ClickDownload _ HI (step_Step w _ HI) Hsub)
    as [Hsub' _].
  rewrite run_logs; [|by apply Inv_step|done|done].
  unfold step. rewrite Hd, activate_handleDownload by by apply not_false.
  done.
Qed.

Lemma logs_are_emissions_since_clear_witness :
  let evs0 := [ListenSettled 0 (Fulfilled ());
               ChangeUrl "https://www.youtube.com/watch?v=abc123";
               Emit download_log (BackendLogMessage.mk "stdout" "old")] in
  let evs := [Emit download_log (BackendLogMessage.mk "stdout" "one");
              Emit download_progress (ProgressUpdate.mk 10 "downloading");
              Emit download_log (BackendLogMessage.mk "stderr" "two")] in
  let w := run init evs0 in
  logs (state (run w evs)) = logs (state w) ++ log_emissions evs
  ∧ logs (state (run (step w ClickDownload) evs)) = log_emissions evs.
Proof.
  destruct (logs_are_emissions_since_clear
              [ListenSettled 0 (Fulfilled ());
               ChangeUrl "https://www.youtube.com/watch?v=abc123";
               Emit download_log (BackendLogMessage.mk "stdout" "old")]
              [Emit download_log (BackendLogMessage.mk "stdout" "one");
               Emit download_progress (ProgressUpdate.mk 10 "downloading");
               Emit download_log (BackendLogMessage.mk "stderr" "two")])
    as [Hgrow Hclear]; [reflexivity | reflexivity |].
  split; [exact Hgrow | apply Hclear; reflexivity].
Defined.

(** C5, as stated, fails: the emissions ["old"] and ["new"] are both
    received by the subscribed callback, but a download started between
    them empties the sequence, so the state holds only ["new"]. *)
Lemma logs_not_all_emissions :
  let evs := [Emit download_log (BackendLogMessage.mk "stdout" "old");
              ClickDownload;
              Emit download_log (BackendLogMessage.mk "stdout" "new")] in
  log_subscribed ready = true
  ∧ logs (state ready) = []
  ∧ log_emissions evs = [LogMessage.mk "stdout" "old";
                         LogMessage.mk "stdout" "new"]
  ∧ logs (state (run ready evs)) = [LogMessage.mk "stdout" "new"]
  ∧ logs (state (run ready evs)) ≠ log_emissions evs.
Proof. split_and!; try reflexivity. discriminate. Qed.

(** ** The quality selector *)

Lemma Step_qualities w ev w' :
  Step w ev w' →
  availableQualities (state w') = availableQualities (state w)
  ∨ ∃ tid render qualities,
      ev = InfoSettled tid (Fulfilled qualities)
      ∧ pending w !! tid = Some (fetch_invoke render)
      ∧ availableQualities (state w') = qualities.
Proof.
  destruct 1; wsimpl; auto.
  - destruct H; auto.
  - destruct r; auto.
  - right. by exists tid, render, qualities.
Qed.

Lemma step_qualities w ev :
  Inv w →
  availableQualities (state (step w ev)) =
  match ev with
  | InfoSettled tid (Fulfilled qualities) =>
      match awaits_invoke w tid with
      | Some (get_video_info _) => qualities
      | _ => availableQualities (state w)
      end
  | _ => availableQualities (state w)
  end.
Proof.
  intros HI.
  destruct (Step_qualities w ev _ (step_Step w ev HI))
    as [Hq|(tid & render & qs & -> & Hp & Hq)].
  - rewrite Hq. destruct ev as [| | | | | | | | |tid [qs|]| |]; try done.
    unfold awaits_invoke.
    destruct (pending w !! tid) as [p|] eqn:Hp; [|done].
    destruct (inv_pending w HI tid p Hp) as [_ Hk].
    destruct Hk; try done.
    rewrite <- Hq. unfold step. by rewrite Hp.
  - unfold awaits_invoke. by rewrite Hp.
Qed.

Lemma run_qualities w evs acc :
  Inv w →
  availableQualities (state w) = default [] acc →
  availableQualities (state (run w evs)) = default [] (last_fetch w evs acc).
Proof.
  revert w acc; induction evs as [|ev evs IH]; intros w acc HI Hacc; [done|].
  change (run w (ev :: evs)) with (run (step w ev) evs). simpl.
  apply IH; [by apply Inv_step|]. rewrite step_qualities by done.
  destruct ev as [| | | | | | | | |tid [qs|]| |]; try done.
  by destruct (awaits_invoke w tid) as [[]|].
Qed.

Example scenario_selector_shows_fetched :
  map SelectItem.value (qualityItems (state (run init fetched))) =
  ["137"; "140"].
Proof. reflexivity. Qed.

(** C4. In every reachable state the values offered by the quality
    selector are exactly [best; worst] when no [get_video_info] call has
    been fulfilled or the last fulfilled one returned the empty sequence,
    and otherwise exactly the ids of the last fulfilled call's result, in
    the order returned. *)
Theorem quality_selector_fallback_or_fetched (evs : list Event) :
  map SelectItem.value (qualityItems (state (run init evs))) =
  match last_fetch init evs None with
  | None | Some [] => fallbackValues
  | Some qualities => map QualityOption.id qualities
  end.
Proof.
  unfold qualityItems.
  rewrite (run_qualities init evs None Inv_init eq_refl).
  destruct (last_fetch init evs None) as [[|q qs]|]; simpl; try done.
  f_equal. by rewrite map_map.
Qed.

(** ** A rejected download *)

Lemma pending_none_step w ev tid :
  tid < next_id w → pending w !! tid = None →
  pending (step w ev) !! tid = None.
Proof.
  intros Hlt Hp.
  destruct (decide (settles ev = Some tid)) as [Hs|Hs].
  - destruct ev; simpl in Hs; try discriminate; inversion Hs; subst;
      unfold step; by rewrite Hp.
  - destruct (step_facts w ev) as (_ & _ & Hk). by rewrite Hk.
Qed.

Lemma pending_none_run w evs tid :
  tid < next_id w → pending w !! tid = None →
  pending (run w evs) !! tid = None.
Proof.
  revert w; induction evs as [|ev evs IH]; intros w Hlt Hp; [done|].
  apply (IH (step w ev)).
  - destruct (step_facts w ev) as (? & _). lia.
  - by apply pending_none_step.
Qed.

(** While a download is in flight, only a progress emission changes the
    progress cell. *)
Lemma Step_progress w ev w' tid p :
  Inv w → Step w ev w' →
  pending w !! tid = Some p → is_download p = true →
  is_progress_emit ev = false →
  pending w' !! tid = None
  ∨ ∃ p', pending w' !! tid = Some p' ∧ is_download p' = true
          ∧ progress (state w') = progress (state w).
Proof.
  intros HI Hs Hp Hd Hev.
  assert (Hsame : ∀ t q, pending w !! t = Some q → is_download q = true →
                         t = tid).
  { intros t q Ht Hq. by apply (inv_single w HI t tid q p). }
  destruct (inv_pending w HI tid p Hp) as [Hlt _].
  destruct Hs; wsimpl.
  - right. by exists p.
  - right. exists p. destruct H; simpl in *; try done.
  - right. exists p. rewrite lookup_insert_ne by lia. done.
  - unfold downloadButton_disabled in H.
    rewrite (inv_downloading w HI tid p Hp Hd) in H. done.
  - right. exists p.
    assert (tid0 ≠ tid) by (intros ->; rewrite Hp in H; by simplify_eq).
    destruct r; wsimpl; by rewrite lookup_delete_ne.
  - right. rewrite (Hsame tid0 _ H eq_refl). rewrite lookup_insert_eq.
    by eexists.
  - left. rewrite (Hsame tid0 _ H eq_refl). by rewrite lookup_delete_eq.
  - right. exists p.
    assert (tid0 ≠ tid) by (intros ->; rewrite Hp in H; by simplify_eq).
    by rewrite lookup_delete_ne.
  - right. exists p.
    assert (tid0 ≠ tid) by (intros ->; rewrite Hp in H; by simplify_eq).
    by rewrite lookup_delete_ne.
  - left. rewrite (Hsame tid0 _ H eq_refl). by rewrite lookup_delete_eq.
  - left. rewrite (Hsame tid0 _ H eq_refl). by rewrite lookup_delete_eq.
Qed.

Lemma run_progress w evs tid p :
  Inv w →
  pending w !! tid = Some p → is_download p = true →
  forallb (λ ev, negb (is_progress_emit ev)) evs = true →
  pending (run w evs) !! tid ≠ None →
  progress (state (run w evs)) = progress (state w).
Proof.
  revert w p; induction evs as [|ev evs IH]; intros w p HI Hp Hd Hev Hend;
    [done|].
  simpl in Hev. apply andb_true_iff in Hev as [Hev1%negb_true_iff Hev2].
  change (run w (ev :: evs)) with (run (step w ev) evs) in *.
  destruct (Step_progress w ev _ tid p HI (step_Step w ev HI) Hp Hd Hev1)
    as [Hn|(p' & Hp' & Hd' & Hpr)].
  - destruct Hend. apply pending_none_run; [|done].
    destruct (inv_pending w HI tid p Hp), (step_facts w ev) as (? & _). lia.
  - rewrite <- Hpr. by apply (IH _ p'); [apply Inv_step| | | |].
Qed.

(** C3. When the [download_media] call of a download rejects with [error],
    the activation logs the error, shows the notification
    ["Failed to start download: " ++ error], lowers [isDownloading] and
    releases its subscription; the progress cell is not touched by the
    failure, so it is 0 when no progress emission arrived since the
    reset. *)
Theorem download_rejected_notifies
        (evs0 evs : list Event) (req : DownloadRequest.t) (error : string) :
  let w := run init evs0 in
  not_ (url (state w)) = false →
  let tid := next_id w in
  let w2 := run (activate (handleDownload (state w)) w) evs in
  awaits_invoke w2 tid = Some (download_media req) →
  let w3 := step w2 (DownloadSettled tid (Rejected error)) in
  (∃ u, trace w3 = trace w2 ++
          [Did tid (console_error error);
           Did tid (toast_error ("Failed to start download: " +:+ error));
           Did tid (setIsDownloading false);
           Did tid (call_unlisten u)])
  ∧ progress (state w3) = progress (state w2)
  ∧ (downloadButton_disabled (state w) = false →
     forallb (λ ev, negb (is_progress_emit ev)) evs = true →
     progress (state w3) = 0%Q).
Proof.
  intros w Hurl tid w2 Ha w3. pose proof Hurl as Hu%not_false.
  destruct (awaits_download_inv (state w) w2 tid req) as (_ & u & Hp);
    [by apply download_at_activation | done |].
  assert (Hw3 : progress (state w3) = progress (state w2)
                ∧ trace w3 = trace w2 ++
                    [Did tid (console_error error);
                     Did tid
                       (toast_error ("Failed to start download: " +:+ error));
                     Did tid (setIsDownloading false);
                     Did tid (call_unlisten u)]).
  { subst w3. unfold step. rewrite Hp. wsimpl.
    split; [done|]. by rewrite <- !app_assoc. }
  destruct Hw3 as [Hpr Htr]. split; [by exists u|]. split; [done|].
  intros Hd Hev. rewrite Hpr.
  assert (HI : Inv w) by (apply reachable_Inv; by exists evs0).
  assert (Hstart : activate (handleDownload (state w)) w = step w ClickDownload)
    by (unfold step; by rewrite Hd).
  subst w2. rewrite (run_progress _ evs tid (download_listen (state w))).
  - by rewrite activate_handleDownload.
  - rewrite Hstart. by apply Inv_step.
  - rewrite activate_handleDownload by done. simpl. by rewrite lookup_insert_eq.
  - done.
  - done.
  - by rewrite Hp.
Qed.

Lemma download_rejected_notifies_witness :
  let evs0 := [ListenSettled 0 (Fulfilled ());
               ChangeUrl "https://www.youtube.com/watch?v=abc123"] in
  let evs := [ListenSettled 3 (Fulfilled ());
              Emit download_log (BackendLogMessage.mk "stderr" "yt-dlp")] in
  let error := "tool not found" in
  let w := run init evs0 in
  let tid := next_id w in
  let w2 := run (activate (handleDownload (state w)) w) evs in
  let w3 := step w2 (DownloadSettled tid (Rejected error)) in
  (∃ u, trace w3 = trace w2 ++
          [Did tid (console_error error);
           Did tid (toast_error "Failed to start download: tool not found");
           Did tid (setIsDownloading false);
           Did tid (call_unlisten u)])
  ∧ progress (state w3) = progress (state w2)
  ∧ progress (state w3) = 0%Q.
Proof.
  destruct (download_rejected_notifies
              [ListenSettled 0 (Fulfilled ());
               ChangeUrl "https://www.youtube.com/watch?v=abc123"]
              [ListenSettled 3 (Fulfilled ());
               Emit download_log (BackendLogMessage.mk "stderr" "yt-dlp")]
              (request_of (state ready)) "tool not found")
    as (Htoast & Hkept & Hzero); [reflexivity | reflexivity |].
  split; [exact Htoast|]. split; [exact Hkept|].
  apply Hzero; reflexivity.
Defined.

(** ** Releasing the progress subscription *)

(** A released [UnlistenFn] is never registered or called again. *)
Lemma Step_released w ev w' u :
  Inv w → Step w ev w' →
  u < next_id w → u ∉ (listeners w).*1 →
  releases u (trace w') = releases u (trace w)
  ∧ u < next_id w' ∧ u ∉ (listeners w').*1.
Proof.
  intros HI Hs Hlt Hni.
  assert (Hadd : ∀ l, u ∉ (listeners w ++ [(next_id w, l)]).*1).
  { intros l. rewrite fmap_app. intros [?|Hin]%elem_of_app; [done|].
    simpl in Hin. apply list_elem_of_singleton in Hin. lia. }
  assert (Hsettled : ∀ tid render u', 
            pending w !! tid = Some (download_invoke render u') →
            u' ≠ u ∧ u ∉ (filter (λ l, l.1 ≠ u') (listeners w)).*1).
  { intros tid render u' Hp. split.
    - intros ->. apply Hni, list_elem_of_fmap.
      exists (u, progress_listener). split; [done|].
      by apply (inv_invoke w HI tid render).
    - intros Hin. by apply Hni, (keys_filter_sub (λ l, l.1 ≠ u')). }
  destruct Hs.
  - done.
  - destruct (simple_frame w ev acts H) as (Hl & _ & Hn & _ & Hr).
    rewrite Hl, Hn, Hr. split_and!; try done. lia.
  - wsimpl. rewrite !releases_app. simpl. split_and!; try done; lia.
  - wsimpl. rewrite !releases_app. simpl. split_and!; try done; lia.
  - destruct r; wsimpl; split_and!; try done; lia.
  - wsimpl. rewrite !releases_app. simpl. split_and!; try done; lia.
  - wsimpl. rewrite !releases_app. simpl. split_and!; try done; lia.
  - wsimpl. rewrite !releases_app. simpl. split_and!; try done; lia.
  - wsimpl. rewrite !releases_app. simpl. split_and!; try done; lia.
  - destruct (Hsettled tid render u0 H) as [Hne Hk].
    wsimpl. rewrite !releases_app. simpl. rewrite decide_False by done.
    split_and!; try done; lia.
  - destruct (Hsettled tid render u0 H) as [Hne Hk].
    wsimpl. rewrite !releases_app. simpl. rewrite decide_False by done.
    split_and!; try done; lia.
Qed.

Lemma run_released w evs u :
  Inv w → u < next_id w → u ∉ (listeners w).*1 →
  releases u (trace (run w evs)) = releases u (trace w).
Proof.
  revert w; induction evs as [|ev evs IH]; intros w HI Hlt Hni; [done|].
  change (run w (ev :: evs)) with (run (step w ev) evs).
  destruct (Step_released w ev _ u HI (step_Step w ev HI) Hlt Hni)
    as (Hr & Hlt' & Hni').
  rewrite IH; [done|by apply Inv_step|done|done].
Qed.

Lemma heard_singleton c ls l :
  length (heard c ls) ≤ 1 → l ∈ ls → channel l.2 = c → heard c ls = [l].
Proof.
  intros Hlen Hin Hc.
  assert (l ∈ heard c ls) as Hh by (apply list_elem_of_filter; by split).
  destruct (heard c ls) as [|l0 [|l1 rest]]; simpl in *; [| |lia].
  - by apply not_elem_of_nil in Hh.
  - by apply list_elem_of_singleton in Hh as ->.
Qed.

Lemma awaits_download_Inv w tid req :
  Inv w → awaits_invoke w tid = Some (download_media req) →
  ∃ render u, pending w !! tid = Some (download_invoke render u).
Proof.
  intros HI. unfold awaits_invoke.
  destruct (pending w !! tid) as [p|] eqn:Hp; [|done].
  destruct (inv_pending w HI tid p Hp) as [_ Hk].
  destruct Hk; try done. intros _. by exists render, u.
Qed.

(** C8. In every reachable world in which a download is waiting for its
    [download_media] call, there is exactly one progress subscription, it
    has not been released, and the step that settles the call (fulfilled
    or rejected) ends with the call of its [UnlistenFn]: afterwards no
    progress listener is registered, and in every continuation of the run
    that [UnlistenFn] has been called exactly once. *)
Theorem progress_subscription_released_once
        (evs0 : list Event) (tid : nat) (req : DownloadRequest.t)
        (r : Settled unit) :
  let w := run init evs0 in
  awaits_invoke w tid = Some (download_media req) →
  let w' := step w (DownloadSettled tid r) in
  ∃ u, heard download_progress (listeners w) = [(u, progress_listener)]
       ∧ releases u (trace w) = 0
       ∧ (∃ mid, trace w' = trace w ++ mid ++ [Did tid (call_unlisten u)]
                 ∧ releases u mid = 0)
       ∧ heard download_progress (listeners w') = []
       ∧ ∀ evs, releases u (trace (run w' evs)) = 1.
Proof.
  intros w Ha w'.
  assert (HI : Inv w) by (apply reachable_Inv; by exists evs0).
  destruct (awaits_download_Inv w tid req HI Ha) as (render & u & Hp).
  pose proof (inv_invoke w HI tid render u Hp) as Hin.
  destruct (inv_listeners w HI u _ Hin) as [Hlt _].
  assert (Hzero : releases u (trace w) = 0).
  { destruct (releases u (trace w)) eqn:E; [done|].
    destruct (inv_released w HI u) as [_ Hni]; [lia|].
    destruct Hni. apply list_elem_of_fmap. by exists (u, progress_listener). }
  assert (HI' : Inv w') by by apply Inv_step.
  assert (Hw' : (∃ mid, trace w' = trace w ++ mid ++ [Did tid (call_unlisten u)]
                        ∧ releases u mid = 0)
                ∧ listeners w' = filter (λ l, l.1 ≠ u) (listeners w)
                ∧ next_id w' = next_id w).
  { subst w'. unfold step. rewrite Hp. destruct r; wsimpl.
    - split; [|done]. eexists [_; _; _]. by rewrite <- !app_assoc.
    - split; [|done]. eexists [_; _; _]. by rewrite <- !app_assoc. }
  destruct Hw' as ((mid & Htr & Hmid) & Hl & Hn).
  exists u. split_and!.
  - apply heard_singleton; [apply (inv_progress_count w HI)|done|done].
  - done.
  - by exists mid.
  - rewrite Hl. apply heard_progress_released; [|done].
    apply (inv_progress_count w HI).
  - intros evs. rewrite run_released; [|done|lia|].
    + rewrite Htr, !releases_app, Hzero, Hmid. simpl.
      by rewrite decide_True.
    + rewrite Hl. intros [[u' l] [? [? _]%list_elem_of_filter]]%list_elem_of_fmap.
      simpl in *. by subst.
Qed.

Lemma progress_subscription_released_once_witness :
  let evs0 := [ListenSettled 0 (Fulfilled ());
               ChangeUrl "https://www.youtube.com/watch?v=abc123";
               ClickDownload;
               ListenSettled 3 (Fulfilled ());
               Emit download_progress (ProgressUpdate.mk 55 "downloading")] in
  let w := run init evs0 in
  let w' := step w (DownloadSettled 3 (Rejected "tool not found")) in
  ∃ u, heard download_progress (listeners w) = [(u, progress_listener)]
       ∧ releases u (trace w) = 0
       ∧ (∃ mid, trace w' = trace w ++ mid ++ [Did 3 (call_unlisten u)]
                 ∧ releases u mid = 0)
       ∧ heard download_progress (listeners w') = []
       ∧ ∀ evs, releases u (trace (run w' evs)) = 1.
Proof.
  apply (progress_subscription_released_once
           [ListenSettled 0 (Fulfilled ());
            ChangeUrl "https://www.youtube.com/watch?v=abc123";
            ClickDownload;
            ListenSettled 3 (Fulfilled ());
            Emit download_progress (ProgressUpdate.mk 55 "downloading")]
           3 (request_of (state ready)) (Rejected "tool not found")).
  reflexivity.
Defined.

(** ** The selected quality across a fetch *)

(** C10. A fulfilled [get_video_info] replaces [availableQualities] and
    leaves the selected quality as it was; a download started afterwards
    sends that selected quality. So the selection can be a value that the
    selector no longer offers: after the scenario's fetch the selection is
    still ["best"], which is not among the offered values, and ["best"] is
    what the next [download_media] request carries. *)
Theorem fetch_keeps_selected_quality
        (w : World) (evs : list Event) (u : string)
        (qualities : list QualityOption.t) :
  not_ (url (state w)) = false →
  let tid := next_id w in
  let w2 := run (activate (handleFetchVideoInfo (state w)) w) evs in
  awaits_invoke w2 tid = Some (get_video_info u) →
  let w3 := step w2 (InfoSettled tid (Fulfilled qualities)) in
  availableQualities (state w3) = qualities
  ∧ quality (state w3) = quality (state w2)
  ∧ (∀ evs' req,
       not_ (url (state w3)) = false →
       awaits_invoke (run (activate (handleDownload (state w3)) w3) evs')
                     (next_id w3) = Some (download_media req) →
       DownloadRequest.quality req = quality (state w2))
  ∧ (let w0 := run init fetched in
     availableQualities (state w0) ≠ []
     ∧ quality (state w0) = "best"
     ∧ (quality (state w0) ∉ map SelectItem.value (qualityItems (state w0)))
     ∧ ∃ req,
         awaits_invoke
           (run (step w0 ClickDownload) [ListenSettled (next_id w0) (Fulfilled ())])
           (next_id w0) = Some (download_media req)
         ∧ DownloadRequest.quality req = "best").
Proof.
  intros Hurl%not_false tid w2 Ha w3.
  destruct (awaits_fetch_inv (state w) w2 tid u) as (_ & Hp);
    [by apply fetch_at_activation | done |].
  assert (Hw3 : availableQualities (state w3) = qualities
                ∧ quality (state w3) = quality (state w2)).
  { subst w3. unfold step. rewrite Hp. by wsimpl. }
  destruct Hw3 as [Hq Hsel]. split_and!; try done.
  - intros evs' req Hu%not_false Hreq.
    apply (awaits_download_inv (state w3)) in Hreq as [-> _];
      [|by apply download_at_activation].
    by rewrite <- Hsel.
  - simpl. split_and!; try done.
    + vm_compute. intros Hin.
      repeat (apply elem_of_cons in Hin as [Hin|Hin]; [discriminate|]).
      by apply not_elem_of_nil in Hin.
    + by eexists.
Qed.

Lemma fetch_keeps_selected_quality_witness :
  let w := ready_audio_140 in
  let evs := [ChangeUrl "https://www.youtube.com/watch?v=xyz789"] in
  let qualities := [QualityOption.mk "22" "720p" "video"] in
  let tid := next_id w in
  let w2 := run (activate (handleFetchVideoInfo (state w)) w) evs in
  let w3 := step w2 (InfoSettled tid (Fulfilled qualities)) in
  let w4 := run (activate (handleDownload (state w3)) w3)
                [ListenSettled (next_id w3) (Fulfilled ())] in
  map SelectItem.value (qualityItems (state w3)) = ["22"]
  ∧ availableQualities (state w3) = qualities
  ∧ quality (state w3) = "140"
  ∧ awaits_invoke w4 (next_id w3) =
      Some (download_media
              (DownloadRequest.mk "https://www.youtube.com/watch?v=xyz789"
                                  "audio" "140" None)).
Proof.
  destruct (fetch_keeps_selected_quality ready_audio_140
              [ChangeUrl "https://www.youtube.com/watch?v=xyz789"]
              "https://www.youtube.com/watch?v=abc123"
              [QualityOption.mk "22" "720p" "video"])
    as (Hq & Hsel & Hreq & _); [reflexivity | reflexivity |].
  split; [reflexivity|]. split; [exact Hq|]. split; [reflexivity|].
  reflexivity.
Defined.

(** * Further properties of the component *)

(** ** A rejected progress subscription *)

Lemma download_calls_app tr1 tr2 :
  download_calls (tr1 ++ tr2) = download_calls tr1 + download_calls tr2.
Proof.
  induction tr1 as [|[| t [|[]] |] tr1 IH]; simpl; try done. by rewrite IH.
Qed.

Lemma Stuck_Step w ev w' :
  Stuck w → Step w ev w' →
  Stuck w' ∧ download_calls (trace w') = download_calls (trace w).
Proof.
  intros [HI Hf Hn] Hs.
  assert (HI' : Inv w') by by apply (Inv_Step w ev).
  destruct Hs.
  - done.
  - destruct (simple_frame w ev acts H) as (Hl & Hp & Hnx & Hd & Hr).
    split; [split; [done|by rewrite Hd|by rewrite Hp]|].
    destruct H; wsimpl; rewrite ?download_calls_app; simpl; lia.
  - split; [split; [done|done|]|].
    + wsimpl. intros t p [[<- <-]|[_ Hp]]%lookup_insert_Some; [done|].
      by apply (Hn t).
    + wsimpl. rewrite !download_calls_app. simpl. lia.
  - unfold downloadButton_disabled in H. congruence.
  - split; [|by destruct r].
    split; [done|by destruct r|].
    destruct r; wsimpl; intros t p [_ Hp]%lookup_delete_Some; by apply (Hn t).
  - by pose proof (Hn tid _ H).
  - by pose proof (Hn tid _ H).
  - split.
    + split; [done|done|]. wsimpl.
      intros t p [_ Hp]%lookup_delete_Some. by apply (Hn t).
    + wsimpl. rewrite !download_calls_app. simpl. lia.
  - split.
    + split; [done|done|]. wsimpl.
      intros t p [_ Hp]%lookup_delete_Some. by apply (Hn t).
    + wsimpl. rewrite !download_calls_app. simpl. lia.
  - by pose proof (Hn tid _ H).
  - by pose proof (Hn tid _ H).
Qed.

Lemma Stuck_run w evs :
  Stuck w →
  Stuck (run w evs)
  ∧ download_calls (trace (run w evs)) = download_calls (trace w).
Proof.
  revert w; induction evs as [|ev evs IH]; intros w HS; [done|].
  change (run w (ev :: evs)) with (run (step w ev) evs).
  destruct (Stuck_Step w ev (step w ev) HS) as [HS' Hc];
    [apply step_Step, HS|].
  destruct (IH _ HS') as [HS'' Hc']. split; [done|congruence].
Qed.

Lemma awaits_channel_Inv w tid :
  Inv w → awaits_channel w tid = Some download_progress →
  ∃ render, pending w !! tid = Some (download_listen render).
Proof.
  intros HI. unfold awaits_channel.
  destruct (pending w !! tid) as [p|] eqn:Hp; [|done].
  destruct (inv_pending w HI tid p Hp) as [_ Hk].
  destruct Hk; try done. intros _. by exists render.
Qed.

(** X1. [await listen] is outside the [try]/[finally] of [handleDownload]:
    when the progress subscription of a download is rejected, the
    rejection leaves the handler uncaught, [isDownloading] is never
    lowered again, and so in every continuation the download button stays
    disabled, a click on it does nothing, and no [download_media] call is
    ever issued. *)
Theorem listen_rejected_disables_download_forever
        (evs0 evs : list Event) (tid : nat) (error : string) :
  let w := run init evs0 in
  awaits_channel w tid = Some download_progress →
  let w' := step w (ListenSettled tid (Rejected error)) in
  let w'' := run w' evs in
  trace w' = trace w ++ [Uncaught tid error]
  ∧ downloadButton_disabled (state w'') = true
  ∧ step w'' ClickDownload = w''
  ∧ download_calls (trace w'') = download_calls (trace w).
Proof.
  intros w Ha w' w''.
  assert (HI : Inv w) by (apply reachable_Inv; by exists evs0).
  destruct (awaits_channel_Inv w tid HI Ha) as [render Hp].
  assert (Hw' : trace w' = trace w ++ [Uncaught tid error]
                ∧ isDownloading (state w') = true
                ∧ pending w' = delete tid (pending w)).
  { subst w'. unfold step. rewrite Hp. wsimpl. split; [done|].
    split; [|done]. by apply (inv_downloading w HI tid _ Hp). }
  destruct Hw' as (Ht & Hf & Hpe).
  assert (HS : Stuck w').
  { split; [by apply Inv_step|done|]. rewrite Hpe.
    intros t p [Hne Ht']%lookup_delete_Some.
    destruct (is_download p) eqn:E; [|done]. destruct Hne.
    by apply (inv_single w HI tid t (download_listen render) p). }
  destruct (Stuck_run w' evs HS) as [[_ Hf' _] Hc]. fold w'' in Hf', Hc.
  split_and!; try done.
  - unfold step, downloadButton_disabled. by rewrite Hf'.
  - rewrite Hc, Ht, download_calls_app. simpl. lia.
Qed.

Lemma listen_rejected_disables_download_forever_witness :
  let evs0 := [ListenSettled 0 (Fulfilled ());
               ChangeUrl "https://www.youtube.com/watch?v=abc123";
               ClickDownload] in
  let evs := [ClickDownload;
              ChangeUrl "https://www.youtube.com/watch?v=xyz789";
              ClickDownload] in
  let w := run init evs0 in
  let w' := step w (ListenSettled 3 (Rejected "event.listen not allowed")) in
  let w'' := run w' evs in
  trace w' = trace w ++ [Uncaught 3 "event.listen not allowed"]
  ∧ downloadButton_disabled (state w'') = true
  ∧ step w'' ClickDownload = w''
  ∧ download_calls (trace w'') = download_calls (trace w).
Proof.
  apply (listen_rejected_disables_download_forever
           [ListenSettled 0 (Fulfilled ());
            ChangeUrl "https://www.youtube.com/watch?v=abc123";
            ClickDownload]
           [ClickDownload;
            ChangeUrl "https://www.youtube.com/watch?v=xyz789";
            ClickDownload]
           3 "event.listen not allowed").
  reflexivity.
Defined.

(** ** What the form can send *)

Lemma download_listen_request r1 r2 :
  download_listen r1 = download_listen r2 → request_of r1 = request_of r2.
Proof.
  intros H. apply (f_equal request_at_listen) in H. simpl in H. congruence.
Qed.

Lemma Formed_init : Formed init.
Proof.
  split; unfold init, boot; wsimpl.
  - set_solver.
  - done.
  - intros tid render [[_ ?]|[_ Hp]]%lookup_insert_Some; [done|].
    by rewrite lookup_empty in Hp.
  - repeat constructor.
Qed.

Lemma Formed_directory w selected :
  Formed w → Formed (step w (DirectorySelected selected)).
Proof.
  intros [Hf Hp Hl Ht]. unfold step, onDirectorySelected.
  destruct selected as [path|]; [destruct (not_ path) eqn:E|]; wsimpl;
    split; wsimpl; try done.
  - intros [= ->]. done.
  - apply Forall_app. split; [done|]. by repeat constructor.
Qed.

Lemma Formed_Step w ev w' :
  Inv w → Formed w → Step w ev w' →
  (∀ selected, ev ≠ DirectorySelected selected) →
  Formed w'.
Proof.
  intros HI [Hf Hp Hl Ht] Hs Hev.
  destruct Hs.
  - done.
  - destruct H; try (exfalso; by eapply Hev); split; wsimpl; try done;
      apply Forall_app; (split; [done|]); by repeat constructor.
  - split; wsimpl; try done.
    + intros t render [[_ ?]|[_ Hq]]%lookup_insert_Some; [done|].
      by apply (Hl t).
    + rewrite <- app_assoc. apply Forall_app. split; [done|].
      apply Forall_cons. split; [done|]. apply Forall_singleton.
      simpl. by apply not_false.
  - split; wsimpl; try done.
    + intros t render [[_ Hx]|[_ Hq]]%lookup_insert_Some; [|by apply (Hl t)].
      rewrite <- (download_listen_request _ _ Hx).
      split; [by apply not_false|done].
    + rewrite <- !app_assoc. apply Forall_app. split; [done|].
      by repeat constructor.
  - destruct r; split; wsimpl; try done;
      intros t render [_ Hq]%lookup_delete_Some; by apply (Hl t).
  - split; wsimpl; try done.
    + intros t r [[_ ?]|[_ [_ Hq]%lookup_delete_Some]]%lookup_insert_Some;
        [done|]. by apply (Hl t).
    + apply Forall_app. split; [done|]. apply Forall_singleton.
      simpl. by apply (Hl tid).
  - split; wsimpl; try done.
    + intros t r [_ Hq]%lookup_delete_Some. by apply (Hl t).
    + apply Forall_app. split; [done|]. by repeat constructor.
  - split; wsimpl; try done.
    + intros t r [_ Hq]%lookup_delete_Some. by apply (Hl t).
    + rewrite <- !app_assoc. apply Forall_app. split; [done|].
      by repeat constructor.
  - split; wsimpl; try done.
    + intros t r [_ Hq]%lookup_delete_Some. by apply (Hl t).
    + rewrite <- !app_assoc. apply Forall_app. split; [done|].
      by repeat constructor.
  - split; wsimpl; try done.
    + intros t r [_ Hq]%lookup_delete_Some. by apply (Hl t).
    + rewrite <- !app_assoc. apply Forall_app. split; [done|].
      by repeat constructor.
  - split; wsimpl; try done.
    + intros t r [_ Hq]%lookup_delete_Some. by apply (Hl t).
    + rewrite <- !app_assoc. apply Forall_app. split; [done|].
      by repeat constructor.
Qed.

Lemma Formed_step w ev : Inv w → Formed w → Formed (step w ev).
Proof.
  intros HI HF.
  assert ((∃ selected, ev = DirectorySelected selected)
          ∨ ∀ selected, ev ≠ DirectorySelected selected)
    as [[selected ->]|Hne] by (destruct ev; eauto).
  - by apply Formed_directory.
  - by apply (Formed_Step w ev); [| |apply step_Step|].
Qed.

Lemma Formed_run w evs : Inv w → Formed w → Formed (run w evs).
Proof.
  revert w; induction evs as [|ev evs IH]; intros w HI HF; [done|].
  apply (IH (step w ev)); [by apply Inv_step|by apply Formed_step].
Qed.

(** X2. Every bridge call the component ever issues is well formed:
    [get_video_info] carries a non-empty URL, and [download_media] carries
    a non-empty URL, one of the three formats of the format selector, and
    a [downloadPath] that is [null] or a non-empty path. *)
Theorem issued_calls_well_formed
        (evs : list Event) (i tid : nat) (c : Call) :
  trace (run init evs) !! i = Some (Called tid c) →
  wf_call c.
Proof.
  intros Hi.
  pose proof (formed_trace _ (Formed_run init evs Inv_init Formed_init)) as Ht.
  by apply (Forall_lookup_1 _ _ _ _ Ht Hi).
Qed.

Lemma issued_calls_well_formed_witness :
  wf_call (call_invoke
             (download_media
                (DownloadRequest.mk "https://www.youtube.com/watch?v=abc123"
                                    "audio" "best" None))).
Proof.
  apply (issued_calls_well_formed
           [ListenSettled 0 (Fulfilled ());
            ChangeUrl "https://www.youtube.com/watch?v=abc123";
            ChangeFormat "audio";
            ClickDownload;
            ListenSettled 4 (Fulfilled ())]
           7 4).
  reflexivity.
Defined.

(** ** The download location *)

Lemma step_downloadPath w ev :
  Inv w →
  downloadPath (state (step w ev)) =
  match ev with
  | DirectorySelected (Some path) =>
      if not_ path then downloadPath (state w) else Some path
  | _ => downloadPath (state w)
  end.
Proof.
  intros HI.
  assert ((∃ selected, ev = DirectorySelected selected)
          ∨ ∀ selected, ev ≠ DirectorySelected selected)
    as [[selected ->]|Hne] by (destruct ev; eauto).
  - unfold step, onDirectorySelected.
    destruct selected as [path|]; [destruct (not_ path)|]; done.
  - assert (downloadPath (state (step w ev)) = downloadPath (state w)) as ->.
    { destruct (step_Step w ev HI); wsimpl; try done.
      - destruct H; try done; exfalso; by eapply Hne.
      - by destruct r. }
    destruct ev; try done. exfalso; by eapply Hne.
Qed.

(** X3. A chosen download directory is never lost: whatever happens
    afterwards (cancelling the directory dialog, downloads, fetches), the
    download path stays a chosen directory, and the read-only location
    input shows that path and not the default text. *)
Theorem chosen_directory_is_kept
        (evs0 evs : list Event) (path : string) :
  let w := run init evs0 in
  downloadPath (state w) = Some path →
  ∃ path', downloadPath (state (run w evs)) = Some path'
           ∧ downloadLocationValue (state (run w evs)) = path'
           ∧ downloadPath (state (step (run w evs) (DirectorySelected None)))
             = Some path'.
Proof.
  intros w Hp.
  assert (HI : Inv w) by (apply reachable_Inv; by exists evs0).
  assert (Hkept : ∃ path', downloadPath (state (run w evs)) = Some path').
  { clearbody w. clear evs0. revert w path HI Hp.
    induction evs as [|ev evs IH]; intros w path HI Hp; [by exists path|].
    change (run w (ev :: evs)) with (run (step w ev) evs).
    pose proof (step_downloadPath w ev HI) as Hs. rewrite Hp in Hs.
    destruct ev as [| | | | |[p|]| | | | | |];
      try (by apply (IH _ path); [apply Inv_step|]).
    destruct (not_ p); [by apply (IH _ path); [apply Inv_step|]|].
    by apply (IH _ p); [apply Inv_step|]. }
  destruct Hkept as [path' Hp']. exists path'. split; [done|].
  assert (HI' : Inv (run w evs)) by by apply Inv_run.
  split.
  - assert (HF : Formed (run w evs)).
    { unfold w. rewrite <- run_app.
      apply Formed_run; [apply Inv_init|apply Formed_init]. }
    pose proof (formed_path _ HF) as Hne. unfold downloadLocationValue.
    rewrite Hp' in *. destruct path'; [done|done].
  - by rewrite step_downloadPath.
Qed.

Lemma chosen_directory_is_kept_witness :
  let evs0 := [DirectorySelected (Some "D:\Videos")] in
  let evs := [DirectorySelected None; DirectorySelected (Some "");
              ChangeUrl "https://www.youtube.com/watch?v=abc123";
              ClickDownload] in
  let w := run init evs0 in
  ∃ path', downloadPath (state (run w evs)) = Some path'
           ∧ downloadLocationValue (state (run w evs)) = path'
           ∧ downloadPath (state (step (run w evs) (DirectorySelected None)))
             = Some path'.
Proof.
  apply (chosen_directory_is_kept
           [DirectorySelected (Some "D:\Videos")]
           [DirectorySelected None; DirectorySelected (Some "");
            ChangeUrl "https://www.youtube.com/watch?v=abc123";
            ClickDownload]
           "D:\Videos").
  reflexivity.
Defined.

(** ** One call of each kind at a time *)

Lemma Fetching_init : Fetching init.
Proof.
  split; unfold init, boot; wsimpl.
  - intros tid p [[_ <-]|[_ Hp]]%lookup_insert_Some; [done|].
    by rewrite lookup_empty in Hp.
  - done.
  - intros t1 t2 p1 p2 [[_ <-]|[_ Hp]]%lookup_insert_Some; [done|].
    by rewrite lookup_empty in Hp.
Qed.

(** Removing an activation that is not a fetch, or adding nothing. *)
Lemma Fetching_keep w w' :
  Fetching w →
  isFetchingInfo (state w') = isFetchingInfo (state w) →
  (∀ tid p, pending w' !! tid = Some p → is_fetch p = true →
            pending w !! tid = Some p) →
  (∀ tid p, pending w !! tid = Some p → is_fetch p = true →
            pending w' !! tid = Some p) →
  Fetching w'.
Proof.
  intros [Hf Hs Hu] Hflag Hold Hnew. split; rewrite ?Hflag.
  - intros tid p Hp Hi. by apply (Hf tid p); [apply Hold|].
  - intros (tid & p & Hp & Hi)%Hs. exists tid, p. split; [by apply Hnew|done].
  - intros t1 t2 p1 p2 H1 Hi1 H2 Hi2.
    by apply (Hu t1 t2 p1 p2); [apply Hold| |apply Hold|].
Qed.

Lemma Fetching_Step w ev w' : Inv w → Fetching w → Step w ev w' → Fetching w'.
Proof.
  intros HI HF Hs. pose proof HF as [Hf Hsome Hu].
  destruct Hs.
  - done.
  - destruct (simple_frame w ev acts H) as (_ & Hp & _).
    apply (Fetching_keep w); rewrite ?Hp; try done.
    by destruct H.
  - assert (Hnone : ∀ t p, pending w !! t = Some p → is_fetch p = false).
    { intros t p Hp. destruct (is_fetch p) eqn:E; [|done].
      unfold fetchButton_disabled in H. rewrite (Hf t p Hp E) in H. done. }
    split; wsimpl.
    + done.
    + intros _. exists (next_id w), (fetch_invoke (state w)).
      by rewrite lookup_insert_eq.
    + intros t1 t2 p1 p2 [[<- <-]|[_ H1]]%lookup_insert_Some Hi1
                         [[<- <-]|[_ H2]]%lookup_insert_Some Hi2; try done.
      * by rewrite (Hnone t2 p2 H2) in Hi2.
      * by rewrite (Hnone t1 p1 H1) in Hi1.
      * by rewrite (Hnone t1 p1 H1) in Hi1.
  - apply (Fetching_keep w); wsimpl; try done.
    + intros t p [[_ <-]|[_ Hp]]%lookup_insert_Some; [done|done].
    + intros t p Hp _. rewrite lookup_insert_ne; [done|].
      destruct (inv_pending w HI t p Hp). lia.
  - apply (Fetching_keep w); destruct r; wsimpl; try done;
      try (by intros t p [_ Hp]%lookup_delete_Some);
      intros t p Hp Hi; rewrite lookup_delete_ne; try done;
      intros <-; rewrite H in Hp; by simplify_eq.
  - apply (Fetching_keep w); wsimpl; try done.
    + intros t p [[_ <-]|[_ [_ Hp]%lookup_delete_Some]]%lookup_insert_Some;
        done.
    + intros t p Hp Hi. rewrite lookup_insert_ne, lookup_delete_ne; try done;
        intros <-; rewrite H in Hp; by simplify_eq.
  - apply (Fetching_keep w); wsimpl; try done.
    + by intros t p [_ Hp]%lookup_delete_Some.
    + intros t p Hp Hi. rewrite lookup_delete_ne; [done|].
      intros <-. rewrite H in Hp. by simplify_eq.
  - split; wsimpl; try done.
    + intros t p [Hne Hp]%lookup_delete_Some Hi. destruct Hne.
      by apply (Hu tid t (fetch_invoke render) p).
    + intros t1 t2 p1 p2 [Hne Hp]%lookup_delete_Some Hi. destruct Hne.
      by apply (Hu tid t1 (fetch_invoke render) p1).
  - split; wsimpl; try done.
    + intros t p [Hne Hp]%lookup_delete_Some Hi. destruct Hne.
      by apply (Hu tid t (fetch_invoke render) p).
    + intros t1 t2 p1 p2 [Hne Hp]%lookup_delete_Some Hi. destruct Hne.
      by apply (Hu tid t1 (fetch_invoke render) p1).
  - apply (Fetching_keep w); wsimpl; try done.
    + by intros t p [_ Hp]%lookup_delete_Some.
    + intros t p Hp Hi. rewrite lookup_delete_ne; [done|].
      intros <-. rewrite H in Hp. by simplify_eq.
  - apply (Fetching_keep w); wsimpl; try done.
    + by intros t p [_ Hp]%lookup_delete_Some.
    + intros t p Hp Hi. rewrite lookup_delete_ne; [done|].
      intros <-. rewrite H in Hp. by simplify_eq.
Qed.

Lemma Fetching_run w evs : Inv w → Fetching w → Fetching (run w evs).
Proof.
  revert w; induction evs as [|ev evs IH]; intros w HI HF; [done|].
  apply (IH (step w ev)); [by apply Inv_step|].
  by apply (Fetching_Step w ev); [| |apply step_Step].
Qed.

Lemma awaits_fetch_is_fetch w tid :
  (∃ u, awaits_invoke w tid = Some (get_video_info u))
  ↔ ∃ p, pending w !! tid = Some p ∧ is_fetch p = true.
Proof.
  unfold awaits_invoke. split.
  - intros [u Ha]. destruct (pending w !! tid) as [[| | | |[]]|]; try done.
    by eexists.
  - intros (p & -> & Hi). destruct p as [| | | |[]]; try done. by eexists.
Qed.

(** X4. The fetch button's [isFetchingInfo] flag is exact: in every
    reachable state it is raised if and only if a [get_video_info] call is
    waiting for the bridge, and at most one such call is ever waiting. *)
Theorem fetch_flag_tracks_the_call (evs : list Event) :
  let w := run init evs in
  (isFetchingInfo (state w) = true
   ↔ ∃ tid u, awaits_invoke w tid = Some (get_video_info u))
  ∧ ∀ t1 t2 u1 u2,
      awaits_invoke w t1 = Some (get_video_info u1) →
      awaits_invoke w t2 = Some (get_video_info u2) →
      t1 = t2.
Proof.
  intros w.
  destruct (Fetching_run init evs Inv_init Fetching_init) as [Hf Hs Hu].
  fold w in Hf, Hs, Hu. split; [split|].
  - intros (tid & p & Hp & Hi)%Hs. exists tid.
    apply awaits_fetch_is_fetch. by exists p.
  - intros (tid & u & Ha).
    destruct (proj1 (awaits_fetch_is_fetch w tid)) as (p & Hp & Hi);
      [by exists u|]. by apply (Hf tid p).
  - intros t1 t2 u1 u2 H1 H2.
    destruct (proj1 (awaits_fetch_is_fetch w t1)) as (p1 & Hp1 & Hi1);
      [by exists u1|].
    destruct (proj1 (awaits_fetch_is_fetch w t2)) as (p2 & Hp2 & Hi2);
      [by exists u2|].
    by apply (Hu t1 t2 p1 p2).
Qed.

(** X5. At most one download is in flight (between its click and the
    settlement of its [download_media] call), and while one is in flight
    the download button is disabled, so a click on it changes nothing. *)
Theorem one_download_in_flight (evs : list Event) (t1 t2 : nat) :
  let w := run init evs in
  in_flight w t1 = true →
  in_flight w t2 = true →
  t1 = t2
  ∧ downloadButton_disabled (state w) = true
  ∧ step w ClickDownload = w.
Proof.
  intros w H1 H2. unfold in_flight in *.
  assert (HI : Inv w) by (apply reachable_Inv; by exists evs).
  destruct (pending w !! t1) as [p1|] eqn:Hp1; [|done].
  destruct (pending w !! t2) as [p2|] eqn:Hp2; [|done].
  pose proof (inv_downloading w HI t1 p1 Hp1 H1) as Hd.
  split; [by apply (inv_single w HI t1 t2 p1 p2)|]. split; [done|].
  unfold step, downloadButton_disabled. by rewrite Hd.
Qed.

Lemma one_download_in_flight_witness :
  let w := run init [ListenSettled 0 (Fulfilled ());
                     ChangeUrl "https://www.youtube.com/watch?v=abc123";
                     ClickDownload;
                     ClickDownload;
                     ListenSettled 3 (Fulfilled ());
                     ClickDownload] in
  3 = 3
  ∧ downloadButton_disabled (state w) = true
  ∧ step w ClickDownload = w.
Proof.
  apply (one_download_in_flight
           [ListenSettled 0 (Fulfilled ());
            ChangeUrl "https://www.youtube.com/watch?v=abc123";
            ClickDownload;
            ClickDownload;
            ListenSettled 3 (Fulfilled ());
            ClickDownload] 3 3); reflexivity.
Defined.

(** ** Progress emissions *)

Lemma step_emit w c payload :
  Inv w →
  step w (Emit c payload) =
  Nat.iter (length (heard c (listeners w))) (activate (callback c payload)) w.
Proof.
  intros HI. unfold step, deliver. apply deliver_known.
  intros u l Hl. by apply (inv_listeners w HI u l).
Qed.

(** X6. While a download waits for its [download_media] call, each
    progress emission overwrites the progress cell with the emitted value
    as it is (lower than before, above 100, or negative alike) and touches
    no other cell, listener or pending call. *)
Theorem progress_emission_overwrites
        (evs : list Event) (tid : nat) (req : DownloadRequest.t)
        (payload : ProgressUpdate.t) :
  let w := run init evs in
  awaits_invoke w tid = Some (download_media req) →
  let w' := step w (Emit download_progress payload) in
  state w' = apply_setter (setProgress (ProgressUpdate.progress payload))
                          (state w)
  ∧ listeners w' = listeners w
  ∧ pending w' = pending w.
Proof.
  intros w Ha w'.
  assert (HI : Inv w) by (apply reachable_Inv; by exists evs).
  destruct (awaits_download_Inv w tid req HI Ha) as (render & u & Hp).
  subst w'. rewrite step_emit by done.
  rewrite (heard_singleton download_progress (listeners w)
             (u, progress_listener));
    [done|apply (inv_progress_count w HI)| |done].
  by apply (inv_invoke w HI tid render).
Qed.

Lemma progress_emission_overwrites_witness :
  let w := run init [ListenSettled 0 (Fulfilled ());
                     ChangeUrl "https://www.youtube.com/watch?v=abc123";
                     ClickDownload;
                     ListenSettled 3 (Fulfilled ());
                     Emit download_progress (ProgressUpdate.mk 80 "a")] in
  let w' := step w (Emit download_progress (ProgressUpdate.mk 12.5 "b")) in
  progress (state w) = 80%Q
  ∧ state w' = apply_setter (setProgress 12.5) (state w)
  ∧ listeners w' = listeners w
  ∧ pending w' = pending w.
Proof.
  split; [reflexivity|].
  apply (progress_emission_overwrites
           [ListenSettled 0 (Fulfilled ());
            ChangeUrl "https://www.youtube.com/watch?v=abc123";
            ClickDownload;
            ListenSettled 3 (Fulfilled ());
            Emit download_progress (ProgressUpdate.mk 80 "a")]
           3 (request_of (state ready))).
  reflexivity.
Defined.

(** X7. Progress emissions are heard only between the grant of a
    download's subscription and the settlement of its call: while the
    download button is enabled, and while a download is still waiting for
    its subscription, a progress emission changes nothing at all. *)
Theorem progress_emission_unheard
        (evs : list Event) (tid : nat) (payload : ProgressUpdate.t) :
  let w := run init evs in
  downloadButton_disabled (state w) = false
  ∨ awaits_channel w tid = Some download_progress →
  step w (Emit download_progress payload) = w.
Proof.
  intros w Hc.
  assert (HI : Inv w) by (apply reachable_Inv; by exists evs).
  rewrite step_emit by done.
  assert (heard download_progress (listeners w) = []) as ->; [|done].
  destruct Hc as [Hd|Ha].
  - by apply idle_no_download.
  - destruct (awaits_channel_Inv w tid HI Ha) as [render Hp].
    by apply (inv_listen w HI tid render).
Qed.

Lemma progress_emission_unheard_witness :
  let idle := run init [ListenSettled 0 (Fulfilled ())] in
  let waiting := run init [ListenSettled 0 (Fulfilled ());
                           ChangeUrl "https://www.youtube.com/watch?v=abc123";
                           ClickDownload] in
  let payload := ProgressUpdate.mk 50 "downloading" in
  step idle (Emit download_progress payload) = idle
  ∧ step waiting (Emit download_progress payload) = waiting.
Proof.
  split.
  - apply (progress_emission_unheard [ListenSettled 0 (Fulfilled ())] 0).
    left. reflexivity.
  - apply (progress_emission_unheard
             [ListenSettled 0 (Fulfilled ());
              ChangeUrl "https://www.youtube.com/watch?v=abc123";
              ClickDownload] 3).
    right. reflexivity.
Defined.

(** ** Logs without a subscription *)

Lemma unsubscribed_Step w ev w' :
  Inv w → Step w ev w' → log_subscribed w' = false →
  log_subscribed w = false
  ∧ (logs (state w') = logs (state w) ∨ logs (state w') = []).
Proof.
  intros HI Hs. unfold log_subscribed.
  destruct Hs; wsimpl; rewrite ?heard_app, ?app_nil_r; auto.
  - destruct H; wsimpl; auto.
    intros Hn. by destruct (heard download_log (listeners w)).
  - destruct r; wsimpl; rewrite ?heard_app; simpl; auto.
    by destruct (heard download_log (listeners w)).
  - rewrite heard_log_kept; [auto|apply (inv_nodup w HI)|].
    by apply (inv_invoke w HI tid render).
  - rewrite heard_log_kept; [auto|apply (inv_nodup w HI)|].
    by apply (inv_invoke w HI tid render).
Qed.

Lemma unsubscribed_run w evs :
  Inv w → (log_subscribed w = false → logs (state w) = []) →
  log_subscribed (run w evs) = false → logs (state (run w evs)) = [].
Proof.
  revert w; induction evs as [|ev evs IH]; intros w HI Hw; [done|].
  change (run w (ev :: evs)) with (run (step w ev) evs).
  apply IH; [by apply Inv_step|].
  intros Hu.
  destruct (unsubscribed_Step w ev _ HI (step_Step w ev HI) Hu) as [Hu' [Hl|Hl]];
    [|done]. rewrite Hl. by apply Hw.
Qed.

(** X8. Log lines are recorded only through the mount effect's
    subscription: as long as it is not active (its [listen] promise is
    pending or was rejected), the log sequence is empty and a
    [download-log] emission changes nothing at all. *)
Theorem logs_need_the_subscription
        (evs : list Event) (payload : BackendLogMessage.t) :
  let w := run init evs in
  log_subscribed w = false →
  logs (state w) = [] ∧ step w (Emit download_log payload) = w.
Proof.
  intros w Hu.
  assert (HI : Inv w) by (apply reachable_Inv; by exists evs).
  split; [by apply (unsubscribed_run init evs Inv_init)|].
  rewrite step_emit by done. unfold log_subscribed in Hu.
  by destruct (heard download_log (listeners w)).
Qed.

Lemma logs_need_the_subscription_witness :
  let w := run init [ListenSettled 0 (Rejected "event.listen not allowed");
                     Emit download_log (BackendLogMessage.mk "stdout" "a");
                     ChangeUrl "https://www.youtube.com/watch?v=abc123";
                     ClickDownload] in
  logs (state w) = []
  ∧ step w (Emit download_log (BackendLogMessage.mk "stderr" "b")) = w.
Proof.
  apply (logs_need_the_subscription
           [ListenSettled 0 (Rejected "event.listen not allowed");
            Emit download_log (BackendLogMessage.mk "stdout" "a");
            ChangeUrl "https://www.youtube.com/watch?v=abc123";
            ClickDownload]).
  reflexivity.
Defined.

(** ** From an emission to a row of the log viewer *)

(** X9. With the subscription active, a [download-log] emission adds
    exactly one row at the end of the log viewer, carrying the emitted
    message verbatim; the row is tagged [ERR] (and red) exactly when the
    emitted type is ["stderr"], and [OUT] for every other type string,
    expected or not. *)
Theorem emission_becomes_last_row
        (evs : list Event) (payload : BackendLogMessage.t) :
  let w := run init evs in
  log_subscribed w = true →
  let stderr := String.eqb (BackendLogMessage.message_type payload) "stderr" in
  LogViewer_rows (logs (state (step w (Emit download_log payload)))) =
  LogViewer_rows (logs (state w)) ++
  [LogLine.mk
     ((if stderr then "text-red-400" else "text-zinc-300")
      +:+ " break-all whitespace-pre-wrap")
     (if stderr then "ERR" else "OUT")
     (BackendLogMessage.message payload)].
Proof.
  intros w Hs stderr.
  assert (HI : Inv w) by (apply reachable_Inv; by exists evs).
  destruct (Step_logs w _ _ HI (step_Step w (Emit download_log payload) HI) Hs)
    as [_ [Hl|Hc]]; [|done].
  rewrite Hl. unfold LogViewer_rows. by rewrite map_app.
Qed.

Lemma emission_becomes_last_row_witness :
  let w := run init [ListenSettled 0 (Fulfilled ());
                     Emit download_log (BackendLogMessage.mk "stderr" "oops")] in
  LogViewer_rows
    (logs (state (step w (Emit download_log
                            (BackendLogMessage.mk "warning" "odd"))))) =
  [LogLine.mk "text-red-400 break-all whitespace-pre-wrap" "ERR" "oops";
   LogLine.mk "text-zinc-300 break-all whitespace-pre-wrap" "OUT" "odd"].
Proof.
  apply (emission_becomes_last_row
           [ListenSettled 0 (Fulfilled ());
            Emit download_log (BackendLogMessage.mk "stderr" "oops")]
           (BackendLogMessage.mk "warning" "odd")).
  reflexivity.
Defined.

(** ** The request of a download *)

(** X10. The [download_media] request is built from the cells of the
    render in which the button was clicked: whatever the user changes
    while the progress subscription is pending (URL, format, quality,
    directory), the request that is sent carries the values at the
    click. *)
Theorem download_request_is_from_the_click
        (w : World) (evs : list Event) (req : DownloadRequest.t) :
  not_ (url (state w)) = false →
  let w2 := run (activate (handleDownload (state w)) w) evs in
  awaits_invoke w2 (next_id w) = Some (download_media req) →
  req = DownloadRequest.mk (url (state w)) (format (state w))
                           (quality (state w)) (downloadPath (state w)).
Proof.
  intros Hurl%not_false w2 Ha.
  by apply (awaits_download_inv (state w) w2 (next_id w) req);
    [apply download_at_activation|].
Qed.

Lemma download_request_is_from_the_click_witness :
  let w := ready in
  let evs := [ChangeUrl "https://www.youtube.com/watch?v=xyz789";
              ChangeFormat "audio";
              DirectorySelected (Some "D:\Videos");
              ListenSettled 3 (Fulfilled ())] in
  let w2 := run (activate (handleDownload (state w)) w) evs in
  request_of (state w2) =
    DownloadRequest.mk "https://www.youtube.com/watch?v=xyz789"
                       "audio" "best" (Some "D:\Videos")
  ∧ awaits_invoke w2 3 =
      Some (download_media
              (DownloadRequest.mk "https://www.youtube.com/watch?v=abc123"
                                  "video+audio" "best" None)).
Proof.
  split; [reflexivity|].
  assert (Ha : awaits_invoke
                 (run (activate (handleDownload (state ready)) ready)
                    [ChangeUrl "https://www.youtube.com/watch?v=xyz789";
                     ChangeFormat "audio";
                     DirectorySelected (Some "D:\Videos");
                     ListenSettled 3 (Fulfilled ())]) (next_id ready)
               = Some (download_media (request_of (state ready))))
    by reflexivity.
  rewrite (download_request_is_from_the_click ready _ _ eq_refl Ha) in Ha.
  exact Ha.
Defined.

(** ** A fulfilled download, and the next one *)

(** X11. When the [download_media] call of a download is fulfilled, the
    activation shows ["Download started successfully!"], forces progress
    to 100, lowers [isDownloading] and releases its subscription, in this
    order; the download button is enabled again, and the next click on it
    (the URL is still there) starts over from progress 0 with an empty log
    sequence and no progress listener registered yet. *)
Theorem download_fulfilled_then_restart
        (evs : list Event) (tid : nat) (req : DownloadRequest.t) :
  let w := run init evs in
  awaits_invoke w tid = Some (download_media req) →
  let w' := step w (DownloadSettled tid (Fulfilled ())) in
  let w'' := step w' ClickDownload in
  (∃ u, trace w' = trace w ++
          [Did tid (toast_success "Download started successfully!");
           Did tid (setProgress 100);
           Did tid (setIsDownloading false);
           Did tid (call_unlisten u)])
  ∧ downloadButton_disabled (state w') = false
  ∧ in_flight w' tid = false
  ∧ (not_ (url (state w)) = false →
     progress (state w'') = 0%Q
     ∧ logs (state w'') = []
     ∧ in_flight w'' (next_id w) = true
     ∧ heard download_progress (listeners w'') = []).
Proof.
  intros w Ha w' w''.
  assert (HI : Inv w) by (apply reachable_Inv; by exists evs).
  destruct (awaits_download_Inv w tid req HI Ha) as (render & u & Hp).
  assert (HI' : Inv w') by by apply Inv_step.
  assert (Hw' : trace w' = trace w ++
                  [Did tid (toast_success "Download started successfully!");
                   Did tid (setProgress 100);
                   Did tid (setIsDownloading false);
                   Did tid (call_unlisten u)]
                ∧ isDownloading (state w') = false
                ∧ url (state w') = url (state w)
                ∧ next_id w' = next_id w
                ∧ pending w' = delete tid (pending w)).
  { subst w'. unfold step. rewrite Hp. wsimpl.
    split_and!; try done. by rewrite <- !app_assoc. }
  destruct Hw' as (Ht & Hd & Hu & Hn & Hpe).
  split; [by exists u|]. split; [done|].
  split; [unfold in_flight; by rewrite Hpe, lookup_delete_eq|].
  intros Hurl. rewrite <- Hu in Hurl. apply not_false in Hurl.
  destruct (idle_no_download w' HI' Hd) as [_ Hnone].
  subst w''. unfold step, downloadButton_disabled. rewrite Hd.
  rewrite activate_handleDownload by done. unfold in_flight. simpl.
  rewrite Hn, lookup_insert_eq. done.
Qed.

Lemma download_fulfilled_then_restart_witness :
  let w := run init [ListenSettled 0 (Fulfilled ());
                     ChangeUrl "https://www.youtube.com/watch?v=abc123";
                     ClickDownload;
                     ListenSettled 3 (Fulfilled ());
                     Emit download_log (BackendLogMessage.mk "stdout" "a");
                     Emit download_progress (ProgressUpdate.mk 40 "b")] in
  let w' := step w (DownloadSettled 3 (Fulfilled ())) in
  let w'' := step w' ClickDownload in
  progress (state w') = 100%Q
  ∧ downloadButton_disabled (state w') = false
  ∧ progress (state w'') = 0%Q
  ∧ logs (state w'') = []
  ∧ in_flight w'' (next_id w) = true
  ∧ heard download_progress (listeners w'') = [].
Proof.
  destruct (download_fulfilled_then_restart
              [ListenSettled 0 (Fulfilled ());
               ChangeUrl "https://www.youtube.com/watch?v=abc123";
               ClickDownload;
               ListenSettled 3 (Fulfilled ());
               Emit download_log (BackendLogMessage.mk "stdout" "a");
               Emit download_progress (ProgressUpdate.mk 40 "b")]
              3 (request_of (state ready)))
    as (_ & Hd & _ & Hnext); [reflexivity|].
  split; [reflexivity|]. split; [exact Hd|]. apply Hnext. reflexivity.
Defined.

(** ** Fetching during a download *)

Lemma in_flight_fresh w : Inv w → in_flight w (next_id w) = false.
Proof.
  intros HI. unfold in_flight.
  destruct (pending w !! next_id w) as [p|] eqn:Hp; [|done].
  destruct (inv_pending w HI _ p Hp). lia.
Qed.

(** X12. Fetching video info never disturbs a download: a click on the
    fetch button and the settlement of [get_video_info] (fulfilled or
    rejected) leave progress, the log sequence, [isDownloading], the
    registered listeners and the download in flight as they are. *)
Theorem fetch_does_not_disturb_download (evs : list Event) (ev : Event) :
  let w := run init evs in
  is_fetch_event ev = true →
  let w' := step w ev in
  progress (state w') = progress (state w)
  ∧ logs (state w') = logs (state w)
  ∧ isDownloading (state w') = isDownloading (state w)
  ∧ listeners w' = listeners w
  ∧ ∀ tid, in_flight w' tid = in_flight w tid.
Proof.
  intros w Hev w'.
  assert (HI : Inv w) by (apply reachable_Inv; by exists evs).
  pose proof (in_flight_fresh w HI) as Hfresh. unfold in_flight in *.
  subst w'. destruct (step_Step w ev HI); try done; wsimpl.
  - by destruct H.
  - split_and!; try done. intros t.
    destruct (decide (t = next_id w)) as [->|Hne].
    + rewrite lookup_insert_eq. by rewrite Hfresh.
    + by rewrite lookup_insert_ne.
  - split_and!; try done. intros t.
    destruct (decide (t = tid)) as [->|Hne].
    + by rewrite lookup_delete_eq, H.
    + by rewrite lookup_delete_ne.
  - split_and!; try done. intros t.
    destruct (decide (t = tid)) as [->|Hne].
    + by rewrite lookup_delete_eq, H.
    + by rewrite lookup_delete_ne.
Qed.

Lemma fetch_does_not_disturb_download_witness :
  let w := run init [ListenSettled 0 (Fulfilled ());
                     ChangeUrl "https://www.youtube.com/watch?v=abc123";
                     ClickDownload;
                     ListenSettled 3 (Fulfilled ());
                     Emit download_progress (ProgressUpdate.mk 40 "b");
                     ClickFetchInfo] in
  let w' := step w (InfoSettled 6 (Rejected "network unreachable")) in
  isFetchingInfo (state w) = true
  ∧ isFetchingInfo (state w') = false
  ∧ progress (state w') = progress (state w)
  ∧ logs (state w') = logs (state w)
  ∧ isDownloading (state w') = isDownloading (state w)
  ∧ listeners w' = listeners w
  ∧ ∀ tid, in_flight w' tid = in_flight w tid.
Proof.
  split; [reflexivity|]. split; [reflexivity|].
  apply (fetch_does_not_disturb_download
           [ListenSettled 0 (Fulfilled ());
            ChangeUrl "https://www.youtube.com/watch?v=abc123";
            ClickDownload;
            ListenSettled 3 (Fulfilled ());
            Emit download_progress (ProgressUpdate.mk 40 "b");
            ClickFetchInfo]
           (InfoSettled 6 (Rejected "network unreachable"))).
  reflexivity.
Defined.

(** * Properties of the title bar *)

Lemma titlebar_exec_facts tid p w :
  TitleBar.next_id (TitleBar.exec tid p w) = TitleBar.next_id w
  ∧ TitleBar.listeners (TitleBar.exec tid p w) = TitleBar.listeners w
  ∧ ∀ tid', tid' ≠ tid →
      TitleBar.pending (TitleBar.exec tid p w) !! tid'
      = TitleBar.pending w !! tid'.
Proof.
  revert w; induction p; intros w; simpl; try done.
  - destruct (IHp (TitleBar.mkWorld v (TitleBar.listeners w)
                     (TitleBar.pending w) (TitleBar.next_id w)
                     (TitleBar.trace w ++ [TitleBar.Set_ tid v])))
      as (-> & -> & Hp). done.
  - destruct (IHp (TitleBar.mkWorld (TitleBar.isMaximized w)
                     (TitleBar.listeners w) (TitleBar.pending w)
                     (TitleBar.next_id w)
                     (TitleBar.trace w ++ [TitleBar.Sent tid c])))
      as (-> & -> & Hp). done.
  - split_and!; try done. intros; by rewrite lookup_insert_ne.
  - split_and!; try done. intros; by rewrite lookup_insert_ne.
Qed.

Lemma titlebar_activate_facts p w :
  TitleBar.next_id (TitleBar.activate p w) = S (TitleBar.next_id w)
  ∧ ∀ tid, tid < TitleBar.next_id w →
      TitleBar.pending (TitleBar.activate p w) !! tid
      = TitleBar.pending w !! tid.
Proof.
  unfold TitleBar.activate.
  destruct (titlebar_exec_facts (TitleBar.next_id w) p
              (TitleBar.mkWorld (TitleBar.isMaximized w)
                 (TitleBar.listeners w) (TitleBar.pending w)
                 (S (TitleBar.next_id w)) (TitleBar.trace w)))
    as (-> & _ & Hp).
  split; [done|]. intros tid Hlt. rewrite Hp; [done|lia].
Qed.

Lemma titlebar_resize_facts (ls : list (UnlistenFn * TitleBar.Task)) w :
  let w' := fold_left (λ w' l, TitleBar.activate l.2 w') ls w in
  TitleBar.next_id w ≤ TitleBar.next_id w'
  ∧ ∀ tid, tid < TitleBar.next_id w →
      TitleBar.pending w' !! tid = TitleBar.pending w !! tid.
Proof.
  revert w; induction ls as [|l ls IH]; intros w; simpl; [done|].
  destruct (titlebar_activate_facts l.2 w) as [Hn Hp].
  destruct (IH (TitleBar.activate l.2 w)) as [Hn' Hp'].
  split; [lia|]. intros tid Hlt. rewrite Hp' by lia. by apply Hp.
Qed.

Lemma titlebar_step_facts w ev :
  TitleBar.next_id w ≤ TitleBar.next_id (TitleBar.step w ev)
  ∧ ∀ tid, tid < TitleBar.next_id w → TitleBar.settles ev ≠ Some tid →
      TitleBar.pending (TitleBar.step w ev) !! tid
      = TitleBar.pending w !! tid.
Proof.
  assert (Ha : ∀ p, TitleBar.next_id w ≤ TitleBar.next_id (TitleBar.activate p w)
    ∧ ∀ tid, tid < TitleBar.next_id w → TitleBar.settles ev ≠ Some tid →
        TitleBar.pending (TitleBar.activate p w) !! tid
        = TitleBar.pending w !! tid).
  { intros p. destruct (titlebar_activate_facts p w) as [-> Hp].
    split; [lia|]. intros; by apply Hp. }
  destruct ev; unfold TitleBar.step; try apply Ha.
  - destruct (titlebar_resize_facts (TitleBar.listeners w) w) as [? Hp].
    split; [done|]. intros; by apply Hp.
  - destruct (TitleBar.pending w !! tid) as [[]|]; try done.
    destruct (titlebar_exec_facts tid (k r) (TitleBar.wake tid w))
      as (-> & _ & Hp).
    split; [done|]. intros t _ Hs. simpl in Hs.
    rewrite Hp by congruence. simpl. rewrite lookup_delete_ne; congruence.
  - destruct (TitleBar.pending w !! tid) as [[]|]; try done.
    destruct r.
    + match goal with
      | |- context [TitleBar.exec tid ?p ?w0] =>
          destruct (titlebar_exec_facts tid p w0) as (-> & _ & Hp)
      end.
      simpl. split; [lia|]. intros t _ Hs. simpl in Hs.
      rewrite Hp by congruence. simpl. rewrite lookup_delete_ne; congruence.
    + destruct (titlebar_exec_facts tid (k (Rejected error))
                  (TitleBar.wake tid w)) as (-> & _ & Hp).
      split; [done|]. intros t _ Hs. simpl in Hs.
      rewrite Hp by congruence. simpl. rewrite lookup_delete_ne; congruence.
Qed.

(** A click on the green button is waiting for the window's answer, or
    is over. *)
Lemma titlebar_toggle_tracked w evs tid :
  tid < TitleBar.next_id w →
  (TitleBar.pending w !! tid = None
   ∨ TitleBar.pending w !! tid = Some TitleBar.toggleMaximize) →
  TitleBar.pending (TitleBar.run w evs) !! tid = None
  ∨ TitleBar.pending (TitleBar.run w evs) !! tid
    = Some TitleBar.toggleMaximize.
Proof.
  revert w; induction evs as [|ev evs IH]; intros w Hlt Hat; [done|].
  change (TitleBar.run w (ev :: evs))
    with (TitleBar.run (TitleBar.step w ev) evs).
  destruct (titlebar_step_facts w ev) as [Hn Hp].
  apply IH; [lia|].
  destruct (decide (TitleBar.settles ev = Some tid)) as [Hs|Hs];
    [|by rewrite Hp].
  destruct ev; simpl in Hs; try discriminate; inversion Hs; subst;
    unfold TitleBar.step; destruct Hat as [Hq|Hq]; rewrite Hq; auto.
  left. unfold TitleBar.toggleMaximize.
  destruct r as [[]|]; simpl; by rewrite lookup_delete_eq.
Qed.

(** X13. A click on the green button asks the window and acts on its
    answer alone, whatever the [isMaximized] cell holds and whatever
    happens in between: answered [true] it sends exactly [unmaximize],
    answered [false] exactly [maximize], and in both cases it sets the
    cell (and so the icon) to the opposite of the answer. If the query is
    rejected, nothing is sent and the cell is untouched. *)
Theorem toggleMaximize_follows_the_window
        (w : TitleBar.World) (evs : list TitleBar.Event)
        (r : Settled bool) :
  let tid := TitleBar.next_id w in
  let w2 := TitleBar.run (TitleBar.activate TitleBar.toggleMaximize w) evs in
  TitleBar.awaits_answer w2 tid = true →
  let w3 := TitleBar.step w2 (TitleBar.Answered tid r) in
  TitleBar.pending w3 !! tid = None
  ∧ match r with
    | Fulfilled maximized =>
        TitleBar.trace w3 = TitleBar.trace w2 ++
          [TitleBar.Sent tid (if maximized then TitleBar.win_unmaximize
                              else TitleBar.win_maximize);
           TitleBar.Set_ tid (negb maximized)]
        ∧ TitleBar.isMaximized w3 = negb maximized
        ∧ TitleBar.toggleIcon (TitleBar.isMaximized w3)
          = (if maximized then TitleBar.Square else TitleBar.Maximize2)
    | Rejected error =>
        TitleBar.trace w3 = TitleBar.trace w2 ++ [TitleBar.Uncaught tid error]
        ∧ TitleBar.isMaximized w3 = TitleBar.isMaximized w2
    end.
Proof.
  intros tid w2 Ha w3.
  assert (Hp : TitleBar.pending w2 !! tid = Some TitleBar.toggleMaximize).
  { destruct (titlebar_toggle_tracked
                (TitleBar.activate TitleBar.toggleMaximize w) evs tid)
      as [Hn|Hs]; [| |by unfold TitleBar.awaits_answer in Ha;
                       fold w2 in Hn; rewrite Hn in Ha|done].
    - destruct (titlebar_activate_facts TitleBar.toggleMaximize w) as [-> _].
      lia.
    - right. simpl. by rewrite lookup_insert_eq. }
  subst w3. unfold TitleBar.step. rewrite Hp.
  destruct r as [[]|]; simpl; rewrite lookup_delete_eq;
    rewrite <- ?app_assoc; done.
Qed.

Lemma toggleMaximize_follows_the_window_witness :
  let w := TitleBar.run TitleBar.init
             [TitleBar.Answered 0 (Fulfilled false);
              TitleBar.ListenSettled 1 (Fulfilled ())] in
  let evs := [TitleBar.Resize; TitleBar.Answered 4 (Fulfilled false)] in
  let w2 := TitleBar.run (TitleBar.activate TitleBar.toggleMaximize w) evs in
  let w3 := TitleBar.step w2 (TitleBar.Answered 3 (Fulfilled true)) in
  TitleBar.isMaximized w2 = false
  ∧ TitleBar.pending w3 !! 3 = None
  ∧ TitleBar.trace w3 = TitleBar.trace w2 ++
      [TitleBar.Sent 3 TitleBar.win_unmaximize; TitleBar.Set_ 3 false]
  ∧ TitleBar.isMaximized w3 = false
  ∧ TitleBar.toggleIcon (TitleBar.isMaximized w3) = TitleBar.Square.
Proof.
  split; [reflexivity|].
  apply (toggleMaximize_follows_the_window
           (TitleBar.run TitleBar.init
              [TitleBar.Answered 0 (Fulfilled false);
               TitleBar.ListenSettled 1 (Fulfilled ())])
           [TitleBar.Resize; TitleBar.Answered 4 (Fulfilled false)]
           (Fulfilled true)).
  reflexivity.
Defined.

Lemma titlebar_sent_app tr1 tr2 :
  TitleBar.sent (tr1 ++ tr2) = TitleBar.sent tr1 ++ TitleBar.sent tr2.
Proof. induction tr1 as [|[] tr1 IH]; simpl; by rewrite ?IH. Qed.

Lemma titlebar_check_activated w :
  TitleBar.Checking w →
  let w' := TitleBar.activate TitleBar.checkMaximized w in
  TitleBar.Checking w'
  ∧ TitleBar.sent (TitleBar.trace w') = TitleBar.sent (TitleBar.trace w)
  ∧ TitleBar.isMaximized w' = TitleBar.isMaximized w
  ∧ TitleBar.listeners w' = TitleBar.listeners w.
Proof.
  intros [Hp Hl]. simpl. split_and!; try done.
  - split; simpl; [|done].
    intros tid p [[_ <-]|[_ Hq]]%lookup_insert_Some; [by left|by apply (Hp tid)].
  - rewrite titlebar_sent_app. simpl. by rewrite app_nil_r.
Qed.

Lemma titlebar_resize_checks (ls : list (UnlistenFn * TitleBar.Task)) w :
  (∀ l, l ∈ ls → l.2 = TitleBar.checkMaximized) →
  TitleBar.Checking w →
  let w' := fold_left (λ w' l, TitleBar.activate l.2 w') ls w in
  TitleBar.Checking w'
  ∧ TitleBar.sent (TitleBar.trace w') = TitleBar.sent (TitleBar.trace w)
  ∧ TitleBar.isMaximized w' = TitleBar.isMaximized w.
Proof.
  revert w; induction ls as [|l ls IH]; intros w Hls HC; [done|].
  simpl. rewrite (Hls l) by by left.
  destruct (titlebar_check_activated w HC) as (HC' & Hs & Hm & _).
  destruct (IH (TitleBar.activate TitleBar.checkMaximized w)) as (? & Hs' & Hm');
    [intros; apply Hls; by right|done|].
  split_and!; [done|congruence|congruence].
Qed.

Lemma titlebar_Checking_step w ev :
  TitleBar.Checking w → TitleBar.is_click ev = false →
  TitleBar.Checking (TitleBar.step w ev)
  ∧ TitleBar.sent (TitleBar.trace (TitleBar.step w ev))
    = TitleBar.sent (TitleBar.trace w)
  ∧ match ev with
    | TitleBar.Answered tid (Fulfilled maximized) =>
        TitleBar.awaits_answer w tid = true →
        TitleBar.isMaximized (TitleBar.step w ev) = maximized
    | _ => TitleBar.isMaximized (TitleBar.step w ev) = TitleBar.isMaximized w
    end.
Proof.
  intros HC Hev. pose proof HC as [Hp Hl].
  destruct ev; try done; unfold TitleBar.step.
  - by apply titlebar_resize_checks.
  - unfold TitleBar.awaits_answer.
    destruct (TitleBar.pending w !! tid) as [p|] eqn:Hq;
      [|by destruct r].
    destruct (Hp tid p Hq) as [-> | ->]; [|by destruct r].
    destruct r; simpl; (split_and!; [split; simpl; [|done]| |done]);
      try (intros t q [_ ?]%lookup_delete_Some; by apply (Hp t));
      rewrite titlebar_sent_app; simpl; by rewrite app_nil_r.
  - destruct (TitleBar.pending w !! tid) as [p|] eqn:Hq; [|done].
    destruct (Hp tid p Hq) as [-> | ->]; [done|].
    destruct r; simpl; (split_and!; [split; simpl| |]); try done;
      try (intros t q [_ ?]%lookup_delete_Some; by apply (Hp t)).
    intros l [?|Hin]%elem_of_app; [by apply Hl|].
    by apply list_elem_of_singleton in Hin as ->.
Qed.

Lemma titlebar_Checking_init : TitleBar.Checking TitleBar.init.
Proof.
  split; simpl.
  - intros tid p [[_ <-]|[_ [[_ <-]|[_ Hp]]%lookup_insert_Some]]%lookup_insert_Some;
      [by right|by left|by rewrite lookup_empty in Hp].
  - by intros l ?%not_elem_of_nil.
Qed.

Lemma titlebar_Checking_run w evs :
  TitleBar.Checking w →
  forallb (λ ev, negb (TitleBar.is_click ev)) evs = true →
  TitleBar.Checking (TitleBar.run w evs)
  ∧ TitleBar.sent (TitleBar.trace (TitleBar.run w evs))
    = TitleBar.sent (TitleBar.trace w).
Proof.
  revert w; induction evs as [|ev evs IH]; intros w HC Hev; [done|].
  simpl in Hev. apply andb_true_iff in Hev as [Hev1%negb_true_iff Hev2].
  change (TitleBar.run w (ev :: evs))
    with (TitleBar.run (TitleBar.step w ev) evs).
  destruct (titlebar_Checking_step w ev HC Hev1) as (HC' & Hs & _).
  destruct (IH _ HC' Hev2) as [HC'' Hs']. split; [done|congruence].
Qed.

(** X14. The mount check and the resize subscription only read the window:
    as long as no button of the title bar is clicked, nothing is sent to
    the window, however many resize events and answers arrive; and each
    answer to such a check sets the [isMaximized] cell to the answered
    value. *)
Theorem checks_only_read_the_window
        (evs : list TitleBar.Event) (tid : nat) (maximized : bool) :
  forallb (λ ev, negb (TitleBar.is_click ev)) evs = true →
  let w := TitleBar.run TitleBar.init evs in
  TitleBar.sent (TitleBar.trace w) = []
  ∧ (TitleBar.awaits_answer w tid = true →
     let w' := TitleBar.step w (TitleBar.Answered tid (Fulfilled maximized)) in
     TitleBar.isMaximized w' = maximized
     ∧ TitleBar.sent (TitleBar.trace w') = []).
Proof.
  intros Hev w.
  destruct (titlebar_Checking_run TitleBar.init evs titlebar_Checking_init Hev)
    as [HC Hs]. fold w in HC, Hs.
  split; [done|]. intros Ha w'.
  destruct (titlebar_Checking_step w
              (TitleBar.Answered tid (Fulfilled maximized)) HC eq_refl)
    as (_ & Hs' & Hm).
  split; [by apply Hm|]. subst w'. by rewrite Hs', Hs.
Qed.

Lemma checks_only_read_the_window_witness :
  let evs := [TitleBar.ListenSettled 1 (Fulfilled ());
              TitleBar.Resize;
              TitleBar.Answered 0 (Fulfilled false);
              TitleBar.Resize] in
  let w := TitleBar.run TitleBar.init evs in
  let w' := TitleBar.step w (TitleBar.Answered 4 (Fulfilled true)) in
  TitleBar.sent (TitleBar.trace w) = []
  ∧ TitleBar.isMaximized w' = true
  ∧ TitleBar.sent (TitleBar.trace w') = [].
Proof.
  destruct (checks_only_read_the_window
              [TitleBar.ListenSettled 1 (Fulfilled ());
               TitleBar.Resize;
               TitleBar.Answered 0 (Fulfilled false);
               TitleBar.Resize] 4 true) as [Hs Ha]; [reflexivity|].
  split; [exact Hs|]. apply Ha. reflexivity.
Defined.

(** * Properties of the setup script *)

Lemma setup_installs_app out1 out2 :
  Setup.installs (out1 ++ out2) = Setup.installs out1 ++ Setup.installs out2.
Proof. induction out1 as [|[] out1 IH]; simpl; by rewrite ?IH. Qed.

Lemma setup_started_app out1 out2 :
  Setup.started (out1 ++ out2) = Setup.started out1 ++ Setup.started out2.
Proof. induction out1 as [|[] out1 IH]; simpl; by rewrite ?IH. Qed.

(** What one tool block does, whatever its texts. *)
Lemma setup_tool_block {Env} (H : Setup.Host Env)
      heading command installing package installed restart already
      (s : Setup.State Env) :
  let s' := Setup.tool_block H heading command installing package installed
                             restart already s in
  let present := Setup.Get_Command H (Setup.env s) command in
  Setup.installs (Setup.console s') =
    Setup.installs (Setup.console s) ++ (if present then [] else [package])
  ∧ Setup.started (Setup.console s') = Setup.started (Setup.console s)
  ∧ Setup.env s' =
      (if present then Setup.env s
       else Setup.refresh_Path H (Setup.winget_install H package (Setup.env s))).
Proof.
  unfold Setup.tool_block, Setup.Test_CommandExists. simpl.
  destruct (Setup.Get_Command H (Setup.env s) command); simpl.
  - rewrite !setup_installs_app, !setup_started_app. simpl.
    by rewrite !app_nil_r.
  - destruct (Setup.Get_Command H _ command); simpl;
      rewrite !setup_installs_app, !setup_started_app; simpl;
      by rewrite !app_nil_r.
Qed.

Lemma setup_install_Rust {Env} (H : Setup.Host Env) (s : Setup.State Env) :
  let s' := Setup.install_Rust H s in
  let present := Setup.Get_Command H (Setup.env s) "cargo" in
  Setup.installs (Setup.console s') =
    Setup.installs (Setup.console s)
    ++ (if present then [] else ["Rustlang.Rustup"])
  ∧ Setup.started (Setup.console s') = Setup.started (Setup.console s)
  ∧ Setup.env s' =
      (if present then Setup.env s
       else Setup.refresh_Path H
              (Setup.winget_install H "Rustlang.Rustup" (Setup.env s))).
Proof. apply setup_tool_block. Qed.

Lemma setup_install_Node {Env} (H : Setup.Host Env) (s : Setup.State Env) :
  let s' := Setup.install_Node H s in
  let present := Setup.Get_Command H (Setup.env s) "node" in
  Setup.installs (Setup.console s') =
    Setup.installs (Setup.console s)
    ++ (if present then [] else ["OpenJS.NodeJS.LTS"])
  ∧ Setup.started (Setup.console s') = Setup.started (Setup.console s)
  ∧ Setup.env s' =
      (if present then Setup.env s
       else Setup.refresh_Path H
              (Setup.winget_install H "OpenJS.NodeJS.LTS" (Setup.env s))).
Proof. apply setup_tool_block. Qed.

Lemma setup_install_Bun {Env} (H : Setup.Host Env) (s : Setup.State Env) :
  let s' := Setup.install_Bun H s in
  let present := Setup.Get_Command H (Setup.env s) "bun" in
  Setup.installs (Setup.console s') =
    Setup.installs (Setup.console s)
    ++ (if present then [] else ["Oven-sh.Bun"])
  ∧ Setup.started (Setup.console s') = Setup.started (Setup.console s)
  ∧ Setup.env s' =
      (if present then Setup.env s
       else Setup.refresh_Path H
              (Setup.winget_install H "Oven-sh.Bun" (Setup.env s))).
Proof. apply setup_tool_block. Qed.

Lemma setup_install_FFmpeg {Env} (H : Setup.Host Env) (s : Setup.State Env) :
  let s' := Setup.install_FFmpeg H s in
  let present := Setup.Get_Command H (Setup.env s) "ffmpeg" in
  Setup.installs (Setup.console s') =
    Setup.installs (Setup.console s)
    ++ (if present then [] else ["Gyan.FFmpeg"])
  ∧ Setup.started (Setup.console s') = Setup.started (Setup.console s)
  ∧ Setup.env s' =
      (if present then Setup.env s
       else Setup.refresh_Path H
              (Setup.winget_install H "Gyan.FFmpeg" (Setup.env s))).
Proof. apply setup_tool_block. Qed.

(** X15. Without [winget] the script stops at once with exit code 1: its
    last output is the error line in red, nothing is installed, no process
    is started and the machine is left as it was. *)
Theorem setup_stops_without_winget {Env} (H : Setup.Host Env) (e : Env) :
  Setup.Get_Command H e "winget" = false →
  let result := Setup.setup H e in
  result.2 = Setup.exit_code 1
  ∧ Setup.env result.1 = e
  ∧ Setup.installs (Setup.console result.1) = []
  ∧ Setup.started (Setup.console result.1) = []
  ∧ last (Setup.console result.1) =
      Some (Setup.WriteHost
              "ERROR: winget is not installed. Please install App Installer from Microsoft Store."
              (Some Setup.Red)).
Proof.
  intros Hw. unfold Setup.setup, Setup.Test_CommandExists. simpl.
  by rewrite Hw.
Qed.

Lemma setup_stops_without_winget_witness :
  let H := Setup.list_host (λ _, []) in
  let result := Setup.setup H (["cargo"; "node"], []) in
  result.2 = Setup.exit_code 1
  ∧ Setup.env result.1 = (["cargo"; "node"], [])
  ∧ Setup.installs (Setup.console result.1) = []
  ∧ Setup.started (Setup.console result.1) = []
  ∧ last (Setup.console result.1) =
      Some (Setup.WriteHost
              "ERROR: winget is not installed. Please install App Installer from Microsoft Store."
              (Some Setup.Red)).
Proof.
  apply (setup_stops_without_winget (Setup.list_host (λ _, []))
           (["cargo"; "node"], [])).
  reflexivity.
Defined.

(** The script after the [winget] check, as the four blocks in a row. *)
Lemma setup_with_winget {Env} (H : Setup.Host Env) (e : Env) :
  Setup.Get_Command H e "winget" = true →
  ∃ s0, Setup.env s0 = e
        ∧ Setup.installs (Setup.console s0) = []
        ∧ Setup.started (Setup.console s0) = []
        ∧ Setup.setup H e =
            (Setup.finish H
               (Setup.install_FFmpeg H
                  (Setup.install_Bun H
                     (Setup.install_Node H (Setup.install_Rust H s0)))),
             Setup.exit_bare).
Proof.
  intros Hw. unfold Setup.setup, Setup.Test_CommandExists. simpl.
  rewrite Hw. simpl. eexists. split_and!; [| | |reflexivity]; done.
Qed.

Lemma setup_finish {Env} (H : Setup.Host Env) (s : Setup.State Env) :
  Setup.env (Setup.finish H s) = Setup.env s
  ∧ Setup.installs (Setup.console (Setup.finish H s))
    = Setup.installs (Setup.console s)
  ∧ Setup.started (Setup.console (Setup.finish H s))
    = Setup.started (Setup.console s) ++ ["powershell"]
  ∧ last (Setup.console (Setup.finish H s)) =
      Some (Setup.StartProcess "powershell"
              [["-NoExit"]; ["-Command"];
               Setup.startupCommand (Setup.Get_Location H (Setup.env s))]).
Proof.
  unfold Setup.finish. simpl. split; [done|].
  rewrite !setup_installs_app, !setup_started_app. simpl.
  rewrite !app_nil_r. split; [done|]. split; [done|]. by rewrite last_snoc.
Qed.

(** X16. With [winget] present the script always runs to its end, whether
    the installations work or not: it starts exactly one new PowerShell
    (its last action, in the current directory) and leaves by the bare
    [exit]; and what it hands to [winget install] is a selection, in
    order and without repetition, of Rustlang.Rustup, OpenJS.NodeJS.LTS,
    Oven-sh.Bun and Gyan.FFmpeg. *)
Theorem setup_runs_to_the_end {Env} (H : Setup.Host Env) (e : Env) :
  Setup.Get_Command H e "winget" = true →
  let result := Setup.setup H e in
  result.2 = Setup.exit_bare
  ∧ Setup.started (Setup.console result.1) = ["powershell"]
  ∧ last (Setup.console result.1) =
      Some (Setup.StartProcess "powershell"
              [["-NoExit"]; ["-Command"];
               Setup.startupCommand
                 (Setup.Get_Location H (Setup.env result.1))])
  ∧ Setup.installs (Setup.console result.1) `sublist_of` Setup.tools.*2.
Proof.
  intros Hw result.
  destruct (setup_with_winget H e Hw) as (s0 & He & Hi & Hs & Heq).
  subst result. rewrite Heq. cbn [fst snd].
  set (s1 := Setup.install_Rust H s0).
  set (s2 := Setup.install_Node H s1).
  set (s3 := Setup.install_Bun H s2).
  set (s4 := Setup.install_FFmpeg H s3).
  destruct (setup_finish H s4) as (Hfe & Hfi & Hfs & Hfl).
  destruct (setup_install_Rust H s0) as (Hi1 & Hs1 & _).
  destruct (setup_install_Node H s1) as (Hi2 & Hs2 & _).
  destruct (setup_install_Bun H s2) as (Hi3 & Hs3 & _).
  destruct (setup_install_FFmpeg H s3) as (Hi4 & Hs4 & _).
  fold s1 in Hi1, Hs1. fold s2 in Hi2, Hs2. fold s3 in Hi3, Hs3.
  fold s4 in Hi4, Hs4.
  split; [done|]. split; [by rewrite Hfs, Hs4, Hs3, Hs2, Hs1, Hs|].
  split; [by rewrite Hfl, Hfe|].
  rewrite Hfi, Hi4, Hi3, Hi2, Hi1, Hi. simpl.
  destruct (Setup.Get_Command H (Setup.env s0) "cargo"),
           (Setup.Get_Command H (Setup.env s1) "node"),
           (Setup.Get_Command H (Setup.env s2) "bun"),
           (Setup.Get_Command H (Setup.env s3) "ffmpeg"); simpl;
    repeat first [apply sublist_nil | apply sublist_skip | apply sublist_cons].
Qed.

Lemma setup_runs_to_the_end_witness :
  let H := Setup.list_host (λ _, []) in
  let result := Setup.setup H (["winget"; "node"], []) in
  Setup.installs (Setup.console result.1) =
    ["Rustlang.Rustup"; "Oven-sh.Bun"; "Gyan.FFmpeg"]
  ∧ Setup.Get_Command H (Setup.env result.1) "cargo" = false
  ∧ result.2 = Setup.exit_bare
  ∧ Setup.started (Setup.console result.1) = ["powershell"]
  ∧ last (Setup.console result.1) =
      Some (Setup.StartProcess "powershell"
              [["-NoExit"]; ["-Command"]; Setup.startupCommand "C:\Frieren"])
  ∧ Setup.installs (Setup.console result.1) `sublist_of` Setup.tools.*2.
Proof.
  split; [reflexivity|]. split; [reflexivity|].
  apply (setup_runs_to_the_end (Setup.list_host (λ _, []))
           (["winget"; "node"], [])).
  reflexivity.
Defined.

(** X17. On a machine that already has [winget], [cargo], [node], [bun]
    and [ffmpeg], the script installs nothing and never touches the path:
    the machine is left as it was, and the script reports the version of
    each tool before it opens the new shell. *)
Theorem setup_installs_nothing_when_complete
        {Env} (H : Setup.Host Env) (e : Env) :
  forallb (Setup.Get_Command H e) ["winget"; "cargo"; "node"; "bun"; "ffmpeg"]
    = true →
  let result := Setup.setup H e in
  let reported text :=
    Setup.WriteHost text (Some Setup.Green) ∈ Setup.console result.1 in
  Setup.env result.1 = e
  ∧ Setup.installs (Setup.console result.1) = []
  ∧ Forall (λ effect, effect ≠ Setup.UpdatePath) (Setup.console result.1)
  ∧ reported ("  -> Rust already installed: "
              +:+ Setup.capture H e "cargo --version")
  ∧ reported ("  -> Node.js already installed: "
              +:+ Setup.capture H e "node --version")
  ∧ reported ("  -> Bun already installed: "
              +:+ Setup.capture H e "bun --version")
  ∧ reported ("  -> FFmpeg already installed: "
              +:+ Setup.capture H e "ffmpeg -version | Select-Object -First 1")
  ∧ result.2 = Setup.exit_bare.
Proof.
  simpl. intros Hall.
  apply andb_true_iff in Hall as [Hw Hall].
  apply andb_true_iff in Hall as [Hc Hall].
  apply andb_true_iff in Hall as [Hn Hall].
  apply andb_true_iff in Hall as [Hb Hall].
  apply andb_true_iff in Hall as [Hf _].
  unfold Setup.setup, Setup.install_Rust, Setup.install_Node,
    Setup.install_Bun, Setup.install_FFmpeg, Setup.tool_block,
    Setup.Test_CommandExists.
  simpl. rewrite Hw. simpl. rewrite Hc. simpl. rewrite Hn. simpl.
  rewrite Hb. simpl. rewrite Hf. simpl.
  split_and!; try done.
  - repeat (apply Forall_cons; split; [done|]). apply Forall_nil_2.
  - apply list_elem_of_lookup. by exists 8.
  - apply list_elem_of_lookup. by exists 11.
  - apply list_elem_of_lookup. by exists 14.
  - apply list_elem_of_lookup. by exists 17.
Qed.

Lemma setup_installs_nothing_when_complete_witness :
  let H := Setup.list_host (λ _, []) in
  let e := (["winget"; "cargo"; "node"; "bun"; "ffmpeg"], []) in
  let result := Setup.setup H e in
  let reported text :=
    Setup.WriteHost text (Some Setup.Green) ∈ Setup.console result.1 in
  Setup.env result.1 = e
  ∧ Setup.installs (Setup.console result.1) = []
  ∧ Forall (λ effect, effect ≠ Setup.UpdatePath) (Setup.console result.1)
  ∧ reported "  -> Rust already installed: cargo --version: 1.0"
  ∧ reported "  -> Node.js already installed: node --version: 1.0"
  ∧ reported "  -> Bun already installed: bun --version: 1.0"
  ∧ reported
      "  -> FFmpeg already installed: ffmpeg -version | Select-Object -First 1: 1.0"
  ∧ result.2 = Setup.exit_bare.
Proof.
  apply (setup_installs_nothing_when_complete
           (Setup.list_host (λ _, []))
           (["winget"; "cargo"; "node"; "bun"; "ffmpeg"], [])).
  reflexivity.
Defined.

Lemma setup_list_host_keeps_commands provides :
  Setup.keeps_commands (Setup.list_host provides).
Proof.
  intros [path added] package command. simpl.
  intros Hin%bool_decide_eq_true. apply bool_decide_eq_true.
  apply elem_of_app. by left.
Qed.

Lemma setup_envs {Env} (H : Setup.Host Env) (s : Setup.State Env) command :
  Setup.keeps_commands H →
  Setup.Get_Command H (Setup.env s) command = true →
  Setup.Get_Command H (Setup.env (Setup.install_Rust H s)) command = true
  ∧ Setup.Get_Command H (Setup.env (Setup.install_Node H s)) command = true
  ∧ Setup.Get_Command H (Setup.env (Setup.install_Bun H s)) command = true
  ∧ Setup.Get_Command H (Setup.env (Setup.install_FFmpeg H s)) command = true.
Proof.
  intros Hk Hc.
  destruct (setup_install_Rust H s) as (_ & _ & ->).
  destruct (setup_install_Node H s) as (_ & _ & ->).
  destruct (setup_install_Bun H s) as (_ & _ & ->).
  destruct (setup_install_FFmpeg H s) as (_ & _ & ->).
  split_and!;
    match goal with
    | |- context [if ?b then _ else _] => destruct b
    end; try done; by apply Hk.
Qed.

(** X18. On a machine where installing a package and refreshing the path
    never make a command disappear, the script never reinstalls a tool
    that is already there: if the command of a tool is found when the
    script starts, its package is not handed to [winget install], and the
    command is still found when the script ends. *)
Theorem setup_never_reinstalls
        {Env} (H : Setup.Host Env) (e : Env) (command package : string) :
  Setup.keeps_commands H →
  Setup.Get_Command H e "winget" = true →
  (command, package) ∈ Setup.tools →
  Setup.Get_Command H e command = true →
  let result := Setup.setup H e in
  (package ∉ Setup.installs (Setup.console result.1))
  ∧ Setup.Get_Command H (Setup.env result.1) command = true.
Proof.
  intros Hk Hw Hin Hc result.
  destruct (setup_with_winget H e Hw) as (s0 & He & Hi & Hs & Heq).
  subst result. rewrite Heq. cbn [fst snd].
  set (s1 := Setup.install_Rust H s0).
  set (s2 := Setup.install_Node H s1).
  set (s3 := Setup.install_Bun H s2).
  set (s4 := Setup.install_FFmpeg H s3).
  destruct (setup_finish H s4) as (Hfe & Hfi & _).
  destruct (setup_install_Rust H s0) as (Hi1 & _).
  destruct (setup_install_Node H s1) as (Hi2 & _).
  destruct (setup_install_Bun H s2) as (Hi3 & _).
  destruct (setup_install_FFmpeg H s3) as (Hi4 & _).
  fold s1 in Hi1. fold s2 in Hi2. fold s3 in Hi3. fold s4 in Hi4.
  rewrite <- He in Hc.
  destruct (setup_envs H s0 command Hk Hc) as (Hc1 & _). fold s1 in Hc1.
  destruct (setup_envs H s1 command Hk Hc1) as (_ & Hc2 & _). fold s2 in Hc2.
  destruct (setup_envs H s2 command Hk Hc2) as (_ & _ & Hc3 & _).
  fold s3 in Hc3.
  destruct (setup_envs H s3 command Hk Hc3) as (_ & _ & _ & Hc4).
  fold s4 in Hc4.
  split; [|by rewrite Hfe].
  rewrite Hfi, Hi4, Hi3, Hi2, Hi1, Hi. simpl.
  unfold Setup.tools in Hin.
  repeat (apply elem_of_cons in Hin as [Hin|Hin];
          [injection Hin as -> ->|]);
    [| | | |by apply not_elem_of_nil in Hin];
    rewrite ?Hc, ?Hc1, ?Hc2, ?Hc3;
    repeat match goal with
           | |- context [if ?b then _ else _] => destruct b
           end; simpl;
    intros Hp;
    repeat (apply elem_of_cons in Hp as [Hp|Hp]; [discriminate|]);
    by apply not_elem_of_nil in Hp.
Qed.

Lemma setup_never_reinstalls_witness :
  let H := Setup.list_host
             (λ package, if String.eqb package "Rustlang.Rustup"
                         then ["cargo"; "rustup"] else []) in
  let result := Setup.setup H (["winget"; "node"], []) in
  Setup.installs (Setup.console result.1) =
    ["Rustlang.Rustup"; "Oven-sh.Bun"; "Gyan.FFmpeg"]
  ∧ ("OpenJS.NodeJS.LTS" ∉ Setup.installs (Setup.console result.1))
  ∧ Setup.Get_Command H (Setup.env result.1) "node" = true.
Proof.
  split; [reflexivity|].
  apply (setup_never_reinstalls
           (Setup.list_host
              (λ package, if String.eqb package "Rustlang.Rustup"
                          then ["cargo"; "rustup"] else []))
           (["winget"; "node"], []) "node" "OpenJS.NodeJS.LTS").
  - apply setup_list_host_keeps_commands.
  - reflexivity.
  - unfold Setup.tools. apply elem_of_cons. right. apply elem_of_cons. by left.
  - reflexivity.
Defined.
